(** * PicoCalc SD boot loader: a shallow embedding of the boot pipeline,
      the inter-core event bus, the filesystem manager, the USB mass-storage
      callbacks and the main control loop (src/src/main.c and friends). *)

From Stdlib Require Import ZArith List String Ascii Bool Lia Sorted.
Import ListNotations.
Open Scope Z_scope.

(* ================================================================== *)
(** ** Build configuration *)

(** The constants come from config.h and the board header, neither of which
    is among the sources: they are the parameters of the development.
    [FLASH_SECTOR_SIZE] and [XIP_BASE] are fixed by the Pico SDK. *)
Record config := mk_config {
  SD_BOOT_FLASH_OFFSET : Z;
  MAX_APP_SIZE : Z;
  PICO_FLASH_SIZE_BYTES : Z;
  MAX_RAM : Z
}.

Definition FLASH_SECTOR_SIZE : Z := 4096.
Definition XIP_BASE : Z := 0x10000000.

(** A configuration in the shape of the RP2040 build, used for concrete runs. *)
Definition rp2040_config : config :=
  mk_config (256 * 1024) (2 * 1024 * 1024 - 256 * 1024) (2 * 1024 * 1024) 0x20040000.

(* ================================================================== *)
(** ** Observable effects of core 0 *)

Inductive effect :=
| DebugPrint (fmt : string)
| SetStatus (msg : string)
| SleepMs (ms : Z)
| FlashErase (off len : Z)            (* flash_range_erase(off, len) *)
| FlashProgram (off : Z) (data : list Z) (* flash_range_program(off, data, len) *)
| LaunchApp (app_location : Z)        (* launch_application_from *)
| WatchdogReboot.

Definition is_flash_op (e : effect) : bool :=
  match e with FlashErase _ _ | FlashProgram _ _ => true | _ => false end.

Definition flash_ops (es : list effect) : list effect := filter is_flash_op es.

Definition op_offset (e : effect) : Z :=
  match e with FlashErase o _ => o | FlashProgram o _ => o | _ => 0 end.

Definition op_length (e : effect) : Z :=
  match e with
  | FlashErase _ l => l
  | FlashProgram _ d => Z.of_nat (List.length d)
  | _ => 0
  end.

Definition is_launch (e : effect) : bool :=
  match e with LaunchApp _ => true | _ => false end.

(** Flash contents, indexed by offset from the start of flash. Erasing sets
    bytes to 0xFF; programming NOR flash can only clear bits. *)
Definition flash_mem := Z -> Z.

Fixpoint program_bytes (m : flash_mem) (off : Z) (data : list Z) : flash_mem :=
  match data with
  | [] => m
  | b :: data' =>
      let m' := fun a => if a =? off then Z.land (m a) b else m a in
      program_bytes m' (off + 1) data'
  end.

Definition apply_effect (m : flash_mem) (e : effect) : flash_mem :=
  match e with
  | FlashErase off len => fun a => if (off <=? a) && (a <? off + len) then 255 else m a
  | FlashProgram off data => program_bytes m off data
  | _ => m
  end.

Definition apply_flash (es : list effect) (m : flash_mem) : flash_mem :=
  fold_left apply_effect es m.

(** A little-endian 32-bit word of flash ([app_location[i]]). *)
Definition read_word (m : flash_mem) (off : Z) : Z :=
  m off + 256 * m (off + 1) + 65536 * m (off + 2) + 16777216 * m (off + 3).

(* ================================================================== *)
(** ** Files seen through the VFS (fopen/fseek/ftell/fread) *)

Record file := mk_file {
  file_data : list Z;          (* the bytes of the file *)
  seek_end_fails : bool;       (* fseek(fp, 0, SEEK_END) == -1 *)
  ftell_fails : bool;          (* ftell(fp) == -1 *)
  seek_set_fails : bool;       (* fseek(fp, 0, SEEK_SET) == -1 *)
  read_error_at : option nat   (* a read error from this byte on *)
}.

(** [fopen] returns NULL exactly when the lookup fails. *)
Definition filesystem := string -> option file.

(** [fread(buffer, 1, n, fp)] on a regular file: full chunks of [n] bytes
    until the last one; 0 at end of file ends the loop. *)
Fixpoint fread_chunks (fuel : nat) (n : nat) (l : list Z) : list (list Z) :=
  match fuel with
  | O => []
  | S fuel' =>
      match l with
      | [] => []
      | _ => firstn n l :: fread_chunks fuel' n (skipn n l)
      end
  end.

Definition file_chunks (data : list Z) : list (list Z) :=
  fread_chunks (List.length data) (Z.to_nat FLASH_SECTOR_SIZE) data.

(** The bytes [fread] can deliver: with a read error at byte [n], [fread]
    returns the bytes before [n] (a short count for the chunk that meets the
    error) and 0 from then on, which the loops of main.c take for the end of
    the file; [ftell] after the seek to the end still reports the whole size. *)
Definition readable_data (fp : file) : list Z :=
  match read_error_at fp with
  | None => file_data fp
  | Some n => firstn n (file_data fp)
  end.

(* ================================================================== *)
(** ** Flash program loader (main.c: is_same_existing_program, load_program) *)

(** The bytes of flash at offset [off], [n] of them. *)
Definition flash_bytes (m : flash_mem) (off : Z) (n : nat) : list Z :=
  map (fun i => m (off + Z.of_nat i)) (seq 0 n).

Fixpoint list_Z_eqb (a b : list Z) : bool :=
  match a, b with
  | [], [] => true
  | x :: a', y :: b' => (x =? y) && list_Z_eqb a' b'
  | _, _ => false
  end.

Fixpoint same_chunks (cfg : config) (m : flash_mem) (chunks : list (list Z))
    (program_size : Z) : bool :=
  match chunks with
  | [] => true
  | buffer :: rest =>
      let len := List.length buffer in
      if list_Z_eqb buffer (flash_bytes m (SD_BOOT_FLASH_OFFSET cfg + program_size) len)
      then same_chunks cfg m rest (program_size + Z.of_nat len)
      else false
  end.

Definition is_same_existing_program (cfg : config) (m : flash_mem) (fp : file) : bool :=
  same_chunks cfg m (file_chunks (readable_data fp)) 0.

(** The erase/program loop; interrupts are disabled around each pair. *)
Fixpoint program_loop (cfg : config) (chunks : list (list Z)) (program_size : Z)
    : bool * list effect :=
  match chunks with
  | [] => (true, [DebugPrint "program loaded"])
  | buffer :: rest =>
      let len := Z.of_nat (List.length buffer) in
      if program_size + len >? MAX_APP_SIZE cfg then
        (false, [DebugPrint "err: write beyond app area"])
      else
        let (ok, es) := program_loop cfg rest (program_size + len) in
        (ok, FlashErase (SD_BOOT_FLASH_OFFSET cfg + program_size) FLASH_SECTOR_SIZE
             :: FlashProgram (SD_BOOT_FLASH_OFFSET cfg + program_size) buffer :: es)
  end.

Definition load_program (cfg : config) (fs : filesystem) (m : flash_mem)
    (filename : string) : bool * list effect :=
  match fs filename with
  | None => (false, [DebugPrint "open %s fail: %s"])
  | Some fp =>
      (* the comparison result is computed and not used *)
      let _up_to_date := is_same_existing_program cfg m fp in
      if seek_end_fails fp then (false, [DebugPrint "seek err: %s"])
      else
        let file_size :=
          if ftell_fails fp then -1 else Z.of_nat (List.length (file_data fp)) in
        if file_size <=? 0 then (false, [DebugPrint "invalid size: %ld"])
        else if file_size >? MAX_APP_SIZE cfg then
          (false, [DebugPrint "file too large: %ld > %d"])
        else if seek_set_fails fp then
          (false, [DebugPrint "updating: %ld bytes"; DebugPrint "seek err: %s"])
        else
          let (ok, es) := program_loop cfg (file_chunks (readable_data fp)) 0 in
          (ok, DebugPrint "updating: %ld bytes" :: es)
  end.

(* ================================================================== *)
(** ** Application launcher (main.c: is_valid_application, load_firmware_by_path) *)

Definition is_valid_application (cfg : config) (stack_pointer reset_vector : Z) : bool :=
  if (stack_pointer <? 0x20000000) || (stack_pointer >? MAX_RAM cfg) then false
  else if (reset_vector <? 0x10000000 + SD_BOOT_FLASH_OFFSET cfg)
          || (reset_vector >? 0x10000000 + PICO_FLASH_SIZE_BYTES cfg) then false
  else true.

(** [is_valid_application(app_location)] with [app_location = XIP_BASE +
    SD_BOOT_FLASH_OFFSET]: the two header words are read in place. *)
Definition resident_header_valid (cfg : config) (m : flash_mem) : bool :=
  is_valid_application cfg (read_word m (SD_BOOT_FLASH_OFFSET cfg))
                           (read_word m (SD_BOOT_FLASH_OFFSET cfg + 4)).

(** The launch never returns and the watchdog reboot resets the chip: the
    trace ends with either. *)
Definition load_firmware_by_path (cfg : config) (fs : filesystem) (m : flash_mem)
    (path : string) : list effect :=
  let (load_success, es) := load_program cfg fs m path in
  let has_valid_app := resident_header_valid cfg (apply_flash es m) in
  SetStatus "STAT: loading app..." :: es ++
  (if load_success || has_valid_app then
     [SetStatus "STAT: launching app..."; DebugPrint "launching app"; SleepMs 100;
      LaunchApp (XIP_BASE + SD_BOOT_FLASH_OFFSET cfg)]
   else
     [SetStatus "ERR: No valid app"; DebugPrint "no valid app, halting"; SleepMs 2000;
      WatchdogReboot]).

(* ================================================================== *)
(** ** File selection (main.c: final_selection_callback) *)

(** [path + n] as a C string. *)
Definition c_suffix (s : string) (n : nat) : string :=
  string_of_list_ascii (skipn n (list_ascii_of_string s)).

(** [snprintf(status_message, 128, ...)] keeps at most 127 characters. *)
Definition snprintf128 (s : string) : string := substring 0 127 s.

Definition final_selection_callback (cfg : config) (fs : filesystem) (m : flash_mem)
    (path : string) : list effect :=
  let extension := ".bin"%string in
  let path_len := String.length path in
  let ext_len := String.length extension in
  DebugPrint "selected: %s" ::
  if (path_len <? ext_len)%nat
     || negb (String.eqb (c_suffix path (path_len - ext_len)) extension) then
    [DebugPrint "not a bin: %s";
     SetStatus (snprintf128 "Err: FILE is not a .bin file")]
  else
    SetStatus (snprintf128 ("SEL: " ++ path)%string) :: SleepMs 200 ::
    load_firmware_by_path cfg fs m path.

(* ================================================================== *)
(** ** Inter-core event bus (managers/event_bus.c) *)

(** [event_type_t]; an argument of that type is any integer the caller casts. *)
Definition EVENT_NONE : Z := 0.
Definition EVENT_MSC_START : Z := 1.
Definition EVENT_MSC_EXIT : Z := 2.
Definition EVENT_ESC_PRESSED : Z := 3.
Definition EVENT_CARD_REMOVED : Z := 4.
Definition EVENT_MAX : Z := 5.

Inductive core := Core0 | Core1.

Definition other_core (c : core) : core :=
  match c with Core0 => Core1 | Core1 => Core0 end.

(** The SIO FIFOs: one bounded queue into each core. *)
Record sio_fifo := mk_fifo {
  fifo_depth : nat;
  to_core0 : list Z;
  to_core1 : list Z
}.

Definition rx_queue (c : core) (f : sio_fifo) : list Z :=
  match c with Core0 => to_core0 f | Core1 => to_core1 f end.

Definition set_rx_queue (c : core) (q : list Z) (f : sio_fifo) : sio_fifo :=
  match c with
  | Core0 => mk_fifo (fifo_depth f) q (to_core1 f)
  | Core1 => mk_fifo (fifo_depth f) (to_core0 f) q
  end.

(** What core [c] sees of the SIO block. *)
Definition multicore_fifo_rvalid (c : core) (f : sio_fifo) : bool :=
  match rx_queue c f with [] => false | _ => true end.

Definition multicore_fifo_wready (c : core) (f : sio_fifo) : bool :=
  (List.length (rx_queue (other_core c) f) <? fifo_depth f)%nat.

(** Only reached when [wready] holds, so it does not block. *)
Definition multicore_fifo_push_blocking (c : core) (v : Z) (f : sio_fifo) : sio_fifo :=
  set_rx_queue (other_core c) (rx_queue (other_core c) f ++ [v]) f.

(** [multicore_fifo_pop_timeout_us(0, &value)]. *)
Definition multicore_fifo_pop_timeout_us_0 (c : core) (f : sio_fifo)
    : option (Z * sio_fifo) :=
  match rx_queue c f with
  | [] => None
  | v :: q => Some (v, set_rx_queue c q f)
  end.

Definition event_bus_post (c : core) (event : Z) (f : sio_fifo) : bool * sio_fifo :=
  if (event <=? EVENT_NONE) || (event >=? EVENT_MAX) then (false, f)
  else if multicore_fifo_wready c f then
    (true, multicore_fifo_push_blocking c event f)
  else (false, f).

Definition event_bus_available (c : core) (f : sio_fifo) : bool :=
  multicore_fifo_rvalid c f.

Definition event_bus_get (c : core) (f : sio_fifo) : Z * sio_fifo :=
  match multicore_fifo_pop_timeout_us_0 c f with
  | Some (value, f') =>
      if (value >? EVENT_NONE) && (value <? EVENT_MAX) then (value, f')
      else (EVENT_NONE, f')
  | None => (EVENT_NONE, f)
  end.

(** A client program of the bus and what it observes. *)
Inductive bus_op :=
| BusPost (c : core) (event : Z)
| BusAvailable (c : core)
| BusGet (c : core).

Inductive bus_obs :=
| ObsPosted (accepted : bool)
| ObsAvailable (b : bool)
| ObsGot (event : Z).

Fixpoint run_bus (ops : list bus_op) (f : sio_fifo) : list bus_obs * sio_fifo :=
  match ops with
  | [] => ([], f)
  | BusPost c ev :: ops' =>
      let (ok, f1) := event_bus_post c ev f in
      let (obs, f2) := run_bus ops' f1 in (ObsPosted ok :: obs, f2)
  | BusAvailable c :: ops' =>
      let (obs, f2) := run_bus ops' f in
      (ObsAvailable (event_bus_available c f) :: obs, f2)
  | BusGet c :: ops' =>
      let (ev, f1) := event_bus_get c f in
      let (obs, f2) := run_bus ops' f1 in (ObsGot ev :: obs, f2)
  end.

(* ================================================================== *)
(** ** Filesystem manager (managers/fs_manager.c, with fs_init/fs_deinit of main.c) *)

(** The medium as the filesystem service sees it: [fs_mount] succeeds on a
    formatted card when mounting works, [fs_format] when formatting works. *)
Record medium := mk_medium {
  card_present : bool;      (* sd_card_inserted() *)
  formatted : bool;
  mount_works : bool;
  format_works : bool
}.

(** The module state of fs_manager.c and the [sd]/[fat] handles of main.c
    (true when the pointer is non-NULL). The registered callbacks are UI
    hooks and are left out. *)
Record fs_state := mk_fs {
  mounted : bool;
  sd_handle : bool;
  fat_handle : bool;
  cardInsertedState : bool;
  detect_irq_enabled : bool;
  media : medium
}.

Definition set_mounted (b : bool) (s : fs_state) : fs_state :=
  mk_fs b (sd_handle s) (fat_handle s) (cardInsertedState s) (detect_irq_enabled s) (media s).

Definition set_handles (b : bool) (s : fs_state) : fs_state :=
  mk_fs (mounted s) b b (cardInsertedState s) (detect_irq_enabled s) (media s).

Definition set_card_state (b : bool) (s : fs_state) : fs_state :=
  mk_fs (mounted s) (sd_handle s) (fat_handle s) b (detect_irq_enabled s) (media s).

Definition set_irq (b : bool) (s : fs_state) : fs_state :=
  mk_fs (mounted s) (sd_handle s) (fat_handle s) (cardInsertedState s) b (media s).

Definition set_media (md : medium) (s : fs_state) : fs_state :=
  mk_fs (mounted s) (sd_handle s) (fat_handle s) (cardInsertedState s) (detect_irq_enabled s) md.

Definition fs_mount (md : medium) : bool := formatted md && mount_works md.

Definition fs_format (md : medium) : bool * medium :=
  if format_works md then
    (true, mk_medium (card_present md) true (mount_works md) (format_works md))
  else (false, md).

Definition fs_init (s : fs_state) : bool * fs_state :=
  let s1 := set_handles true s in
  if fs_mount (media s1) then (true, s1)
  else
    let (ok, md) := fs_format (media s1) in
    let s2 := set_media md s1 in
    if negb ok then (false, s2)
    else if fs_mount md then (true, s2) else (false, s2).

Definition fs_deinit (s : fs_state) : fs_state := set_handles false s.

Definition FSManager_mount (s : fs_state) : bool * fs_state :=
  if mounted s then (true, s)
  else if negb (card_present (media s)) then (false, s)
  else
    let (ok, s') := fs_init s in
    if ok then (true, set_mounted true s') else (false, s').

Definition FSManager_unmount (s : fs_state) : fs_state :=
  if mounted s then set_mounted false (fs_deinit s) else s.

Definition sd_detect_callback (s : fs_state) : fs_state :=
  let insertedNow := card_present (media s) in
  if insertedNow && negb (cardInsertedState s) then
    snd (FSManager_mount (set_card_state true s))
  else if negb insertedNow && cardInsertedState s then
    FSManager_unmount (set_card_state false s)
  else s.

Definition FSManager_init (s : fs_state) : bool * fs_state :=
  let s1 := set_card_state (card_present (media s)) (set_irq true s) in
  if cardInsertedState s1 then
    let (ok, s2) := fs_init s1 in
    if ok then (true, set_mounted true s2) else (false, set_mounted false s2)
  else (true, s1).

(** The card is inserted or pulled: the detect pin changes, and the GPIO
    interrupt runs the handler when it has been enabled. *)
Definition card_event (present : bool) (s : fs_state) : fs_state :=
  let md := media s in
  let s1 := set_media (mk_medium present (formatted md) (mount_works md) (format_works md)) s in
  if detect_irq_enabled s1 then sd_detect_callback s1 else s1.

(* ================================================================== *)
(** ** USB mass-storage callbacks (usb_msc/usb_msc.c) *)

Definition SCSI_SENSE_NOT_READY : Z := 0x02.

(** The SD block device behind [msc_blockdev]: a read of one block yields
    its bytes or fails (non-zero status); a program succeeds or fails. *)
Record blockdevice := mk_blockdevice {
  bd_read : Z -> option (list Z);
  bd_program_ok : Z -> list Z -> bool
}.

Inductive dev_op :=
| DevRead (lba : Z)
| DevProgram (lba : Z) (data : list Z).

Record msc_state := mk_msc {
  msc_card_inserted : bool;          (* !gpio_get(SD_DET_PIN) *)
  msc_block_size : Z;
  msc_read_buffer : list Z;
  msc_write_buffer : list Z;
  msc_last_read_lba : Z;
  msc_last_write_lba : Z;
  msc_sense : option (Z * Z * Z * Z)  (* lun, sense key, ASC, ASCQ *)
}.

(** One callback invocation: the value returned, the bytes placed in the
    host transfer buffer (None when the callback copies nothing), the new
    module state and the operations issued to the block device. *)
Record msc_result := mk_msc_result {
  msc_ret : Z;
  msc_host_data : option (list Z);
  msc_after : msc_state;
  msc_dev_ops : list dev_op
}.

Definition msc_set_sense (lun key asc ascq : Z) (s : msc_state) : msc_state :=
  mk_msc (msc_card_inserted s) (msc_block_size s) (msc_read_buffer s)
    (msc_write_buffer s) (msc_last_read_lba s) (msc_last_write_lba s)
    (Some (lun, key, asc, ascq)).

Definition msc_set_read (buf : list Z) (lba : Z) (s : msc_state) : msc_state :=
  mk_msc (msc_card_inserted s) (msc_block_size s) buf (msc_write_buffer s)
    lba (msc_last_write_lba s) (msc_sense s).

Definition msc_set_write (buf : list Z) (lba : Z) (s : msc_state) : msc_state :=
  mk_msc (msc_card_inserted s) (msc_block_size s) (msc_read_buffer s) buf
    (msc_last_read_lba s) lba (msc_sense s).

(** [memcpy(buffer, msc_read_buffer + offset, bufsize)]. *)
Definition copy_out (src : list Z) (offset bufsize : Z) : list Z :=
  firstn (Z.to_nat bufsize) (skipn (Z.to_nat offset) src).

(** [memcpy(msc_write_buffer + offset, buffer, bufsize)]. *)
Definition copy_in (dst : list Z) (offset : Z) (data : list Z) : list Z :=
  firstn (Z.to_nat offset) dst ++ data ++ skipn (Z.to_nat offset + List.length data) dst.

Definition tud_msc_read10_cb (bd : blockdevice) (lun lba offset bufsize : Z)
    (s : msc_state) : msc_result :=
  if negb (msc_card_inserted s) then
    mk_msc_result (-1) None (msc_set_sense lun SCSI_SENSE_NOT_READY 0x3A 0x00 s) []
  else if offset =? 0 then
    match bd_read bd lba with
    | None => mk_msc_result 0 None s [DevRead lba]
    | Some data =>
        let s1 := msc_set_read data lba s in
        mk_msc_result 1 (Some (copy_out (msc_read_buffer s1) offset bufsize)) s1 [DevRead lba]
    end
  else mk_msc_result 1 (Some (copy_out (msc_read_buffer s) offset bufsize)) s [].

Definition tud_msc_write10_cb (bd : blockdevice) (lun lba offset : Z) (buffer : list Z)
    (s : msc_state) : msc_result :=
  let bufsize := Z.of_nat (List.length buffer) in
  if negb (msc_card_inserted s) then
    mk_msc_result (-1) None (msc_set_sense lun SCSI_SENSE_NOT_READY 0x3A 0x00 s) []
  else
    let last := if offset =? 0 then lba else msc_last_write_lba s in
    let wb := copy_in (msc_write_buffer s) offset buffer in
    let s1 := msc_set_write wb last s in
    if offset + bufsize >=? msc_block_size s then
      if bd_program_ok bd last wb then mk_msc_result 1 None s1 [DevProgram last wb]
      else mk_msc_result 0 None s1 [DevProgram last wb]
    else mk_msc_result 1 None s1 [].

(* ================================================================== *)
(** ** Main control loop (main.c: main, from the first fs_init on) *)

(** Program points of [main]: the first [fs_init] (line 337), the directory
    UI (354), [fs_deinit] (356), the popup (362), [usb_msc_init] (367), the
    USB task loop (370), [usb_msc_stop] (379), the remount (388), and the two
    ends: the application launched, or the watchdog reboot. *)
Inductive main_pc :=
| PcFsInit | PcUiRun | PcFsDeinit | PcMscPopup | PcMscInit | PcMscLoop
| PcMscStop | PcRemount | PcLaunched | PcRebooted.

Definition terminal (pc : main_pc) : bool :=
  match pc with PcLaunched | PcRebooted => true | _ => false end.

(** [sd_dev]/[fat_fs]: the [sd]/[fat] handles of main.c are non-NULL (the
    filesystem holds the card); [msc_dev]: [msc_blockdev] of usb_msc.c is
    non-NULL (the mass-storage adapter holds the card). *)
Record main_state := mk_main {
  pc : main_pc;
  sd_dev : bool;
  fat_fs : bool;
  msc_dev : bool;
  esc_exit : bool;
  card_in : bool
}.

(** Modelled from the spec: text_directory_ui_run (text_directory_ui.c is
    not in the sources). Per the spec's Browsing state it keeps browsing,
    hands a selected file to final_selection_callback (whose
    load_firmware_by_path ends in a launch or a watchdog reboot), or returns
    when the user asks for mass-storage mode; it does not touch the card
    handles. *)
Inductive ui_outcome := UiBrowse | UiLaunch | UiReboot | UiMscRequested.

Definition ui_next (o : ui_outcome) : main_pc :=
  match o with
  | UiBrowse => PcUiRun
  | UiLaunch => PcLaunched
  | UiReboot => PcRebooted
  | UiMscRequested => PcFsDeinit
  end.

Inductive main_step : main_state -> main_state -> Prop :=
| step_card : forall s b, terminal (pc s) = false ->
    main_step s (mk_main (pc s) (sd_dev s) (fat_fs s) (msc_dev s) (esc_exit s) b)
| step_fs_init : forall s (ok : bool), pc s = PcFsInit ->
    main_step s (mk_main (if ok then PcUiRun else PcRebooted) true true (msc_dev s) (esc_exit s) (card_in s))
| step_ui : forall s o, pc s = PcUiRun ->
    main_step s (mk_main (ui_next o) (sd_dev s) (fat_fs s) (msc_dev s) (esc_exit s) (card_in s))
| step_fs_deinit : forall s, pc s = PcFsDeinit ->
    main_step s (mk_main PcMscPopup false false (msc_dev s) (esc_exit s) (card_in s))
| step_popup : forall s, pc s = PcMscPopup ->
    main_step s (mk_main PcMscInit (sd_dev s) (fat_fs s) (msc_dev s) (esc_exit s) (card_in s))
| step_msc_init : forall s (created : bool), pc s = PcMscInit ->
    main_step s (mk_main PcMscLoop (sd_dev s) (fat_fs s) created false (card_in s))
| step_msc_task : forall s, pc s = PcMscLoop -> esc_exit s = false ->
    main_step s s
| step_msc_leave : forall s, pc s = PcMscLoop -> esc_exit s = true ->
    main_step s (mk_main PcMscStop (sd_dev s) (fat_fs s) (msc_dev s) (esc_exit s) (card_in s))
| step_msc_stop : forall s, pc s = PcMscStop ->
    main_step s (mk_main PcRemount (sd_dev s) (fat_fs s) false (esc_exit s) (card_in s))
| step_remount : forall s (ok : bool), pc s = PcRemount ->
    main_step s (mk_main (if ok then PcUiRun else PcRebooted) true true (msc_dev s) (esc_exit s) (card_in s)).

Definition main_initial (s : main_state) : Prop :=
  pc s = PcFsInit /\ sd_dev s = false /\ fat_fs s = false /\ msc_dev s = false.

Inductive main_reachable : main_state -> Prop :=
| reach_init : forall s, main_initial s -> main_reachable s
| reach_step : forall s s', main_reachable s -> main_step s s' -> main_reachable s'.

(* ================================================================== *)
(** ** Event bus, blocking calls and draining (managers/event_bus.c) *)

(** [multicore_fifo_pop_blocking]: [None] when the receive queue is empty,
    where the call waits for the other core to push. *)
Definition multicore_fifo_pop_blocking (c : core) (f : sio_fifo) : option (Z * sio_fifo) :=
  match rx_queue c f with
  | [] => None
  | v :: q => Some (v, set_rx_queue c q f)
  end.

(** [None] when the FIFO towards the other core is full, where
    [multicore_fifo_push_blocking] waits for room. *)
Definition event_bus_post_blocking (c : core) (event : Z) (f : sio_fifo) : option sio_fifo :=
  if (event <=? EVENT_NONE) || (event >=? EVENT_MAX) then Some f
  else if multicore_fifo_wready c f then Some (multicore_fifo_push_blocking c event f)
  else None.

(** [None] when nothing is queued, where the call waits. *)
Definition event_bus_get_blocking (c : core) (f : sio_fifo) : option (Z * sio_fifo) :=
  match multicore_fifo_pop_blocking c f with
  | Some (value, f') =>
      if (value >? EVENT_NONE) && (value <? EVENT_MAX) then Some (value, f')
      else Some (EVENT_NONE, f')
  | None => None
  end.

(** [while (multicore_fifo_rvalid()) (void)multicore_fifo_pop_blocking();]
    with the other core not pushing meanwhile: each pass pops one value, so
    the loop makes at most as many passes as values are queued. *)
Fixpoint fifo_drain (fuel : nat) (c : core) (f : sio_fifo) : sio_fifo :=
  match fuel with
  | O => f
  | S fuel' =>
      if multicore_fifo_rvalid c f then
        match multicore_fifo_pop_blocking c f with
        | Some (_, f') => fifo_drain fuel' c f'
        | None => f
        end
      else f
  end.

Definition event_bus_clear (c : core) (f : sio_fifo) : sio_fifo :=
  fifo_drain (List.length (rx_queue c f)) c f.

Definition event_bus_init (c : core) (f : sio_fifo) : sio_fifo :=
  fifo_drain (List.length (rx_queue c f)) c f.

(* ================================================================== *)
(** ** Input manager (managers/input_manager.c) *)

(** [KEY_ESC] comes from key_event.h, which is not among the sources, and
    [key] is what [keypad_get_key()] returned; [c] is the calling core. The
    result of [event_bus_post] is ignored. *)
Definition InputManager_poll (KEY_ESC : Z) (c : core) (key : Z) (f : sio_fifo) : Z * sio_fifo :=
  if key =? KEY_ESC then (key, snd (event_bus_post c EVENT_ESC_PRESSED f))
  else (key, f).

(* ================================================================== *)
(** ** Mass-storage manager (managers/msc_manager.c) *)

(** [exit_flag], whether [exit_callback] is non-NULL, and the FIFOs. *)
Record msc_manager := mk_msc_manager {
  exit_flag : bool;
  exit_callback_set : bool;
  mgr_fifo : sio_fifo
}.

(** What core 1 does besides touching the FIFO: [usb_msc_init()],
    [tud_task()], [usb_msc_stop()] and the call of [exit_callback]. *)
Inductive core1_effect := UsbMscInit | TudTask | UsbMscStop | ExitCallback.

Definition MSCManager_stop (s : msc_manager) : msc_manager :=
  mk_msc_manager true (exit_callback_set s) (mgr_fifo s).

(** The body of [while (!exit_flag)] after [tud_task()]. *)
Definition core1_loop_body (s : msc_manager) : msc_manager :=
  if event_bus_available Core1 (mgr_fifo s) then
    let (ev, f') := event_bus_get Core1 (mgr_fifo s) in
    if (ev =? EVENT_ESC_PRESSED) || (ev =? EVENT_CARD_REMOVED)
    then mk_msc_manager true (exit_callback_set s) f'
    else mk_msc_manager (exit_flag s) (exit_callback_set s) f'
  else s.

(** What core 0 may do while core 1 runs the loop: nothing, call
    [MSCManager_stop()], or post an event to core 1 with [event_bus_post]
    (as [InputManager_poll] does for ESC). The exit callback is registered
    before core 1 is launched. *)
Inductive core0_action := Core0Idle | Core0Stop | Core0Post (ev : Z).

Definition core0_step (a : core0_action) (s : msc_manager) : msc_manager :=
  match a with
  | Core0Idle => s
  | Core0Stop => MSCManager_stop s
  | Core0Post ev =>
      mk_msc_manager (exit_flag s) (exit_callback_set s)
        (snd (event_bus_post Core0 ev (mgr_fifo s)))
  end.

(** Core 0 doing nothing. *)
Definition core0_idle : nat -> core0_action := fun _ => Core0Idle.

(** At most [fuel] tests of the loop condition; [env i] is what core 0 does
    just before the [i]-th test. A stop or a post anywhere in a pass has the
    effect it has there: [tud_task()] reads neither the volatile [exit_flag]
    nor the FIFO, the body only ever sets the flag, and a post appends
    behind what the body pops. The flag returned tells whether the loop was
    left. *)
Fixpoint core1_loop (fuel : nat) (env : nat -> core0_action) (s : msc_manager)
    : msc_manager * list core1_effect * bool :=
  match fuel with
  | O => (s, [], false)
  | S fuel' =>
      let s1 := core0_step (env O) s in
      if exit_flag s1 then (s1, [], true)
      else
        let '(s', es, done_) := core1_loop fuel' (fun i => env (S i)) (core1_loop_body s1) in
        (s', TudTask :: es, done_)
  end.

Definition MSCManager_core1_entry (fuel : nat) (env : nat -> core0_action) (s : msc_manager)
    : msc_manager * list core1_effect * bool :=
  let s0 := mk_msc_manager false (exit_callback_set s) (mgr_fifo s) in
  let '(s1, es, done_) := core1_loop fuel env s0 in
  if done_ then
    (s1, UsbMscInit :: es ++ UsbMscStop ::
           (if exit_callback_set s1 then [ExitCallback] else []), true)
  else (s1, UsbMscInit :: es, false).

(* ================================================================== *)
(** ** Filesystem manager, teardown (managers/fs_manager.c) *)

(** Unmount, then disable the detect interrupt; the UI callbacks it clears
    are left out. *)
Definition FSManager_deinit (s : fs_state) : fs_state :=
  set_irq false (FSManager_unmount s).

(* ================================================================== *)
(** ** USB mass storage, set-up and the other callbacks (usb_msc/usb_msc.c) *)

(** [msc_block_count] (uint32_t) and [msc_block_size] (uint16_t). *)
Record msc_capacity := mk_msc_capacity {
  cap_block_count : Z;
  cap_block_size : Z
}.

(** What [usb_msc_init] leaves in them: [dev] is [None] when
    [blockdevice_sd_create] returned NULL (the function returns early), else
    the device's [erase_size] and [size()] in bytes. *)
Definition usb_msc_init_capacity (dev : option (Z * Z)) (old : msc_capacity) : msc_capacity :=
  match dev with
  | None => old
  | Some (erase_size, size) =>
      let block_size := erase_size mod 2 ^ 16 in
      mk_msc_capacity ((size / block_size) mod 2 ^ 32) block_size
  end.

Definition tud_msc_capacity_cb (lun : Z) (cap : msc_capacity) : Z * Z :=
  (cap_block_count cap, cap_block_size cap).

Definition host_bytes (o : option (list Z)) : list Z :=
  match o with Some d => d | None => [] end.

(** How TinyUSB drives READ10 (msc_device.c, proc_read10_cmd) for one
    command of [total] bytes starting at [lba0], with blocks of [block]
    bytes and an endpoint buffer of [epbuf] bytes. After [xferred] bytes it
    calls the callback with [lba0 + xferred / block], [xferred mod block]
    and [min epbuf (total - xferred)]; the callback's return value is the
    number of bytes copied: negative fails the command, 0 calls again at
    the same point, n > 0 sends the first n bytes of the buffer to the host
    and advances [xferred] by n. Result: the bytes sent, the values
    returned, the final state and the device operations; [fuel] bounds the
    number of calls. *)
Fixpoint tinyusb_read10 (fuel : nat) (bd : blockdevice) (lun lba0 block epbuf total xferred : Z)
    (s : msc_state) : list Z * list Z * msc_state * list dev_op :=
  match fuel with
  | O => ([], [], s, [])
  | S fuel' =>
      if total <=? xferred then ([], [], s, [])
      else
        let n := Z.min epbuf (total - xferred) in
        let r := tud_msc_read10_cb bd lun (lba0 + xferred / block) (xferred mod block) n s in
        if msc_ret r <? 0 then ([], [msc_ret r], msc_after r, msc_dev_ops r)
        else
          let sent := firstn (Z.to_nat (msc_ret r)) (host_bytes (msc_host_data r)) in
          let '(hs, rets, s', ops) :=
            tinyusb_read10 fuel' bd lun lba0 block epbuf total (xferred + msc_ret r) (msc_after r) in
          (sent ++ hs, msc_ret r :: rets, s', msc_dev_ops r ++ ops)
  end.

(** How TinyUSB hands one piece [p] received from the host to the WRITE10
    callback (msc_device.c, proc_write10_new_data): the return value is the
    number of bytes consumed; negative fails the command; fewer than
    [length p] advances [xferred] by that many and calls again with the
    bytes left over; all of them ends the piece. Result: the new [xferred]
    (None when the command failed or [fuel] calls did not finish the
    piece), the values returned, the final state and the device
    operations. *)
Fixpoint write10_piece (fuel : nat) (bd : blockdevice) (lun lba0 block xferred : Z)
    (p : list Z) (s : msc_state) : option Z * list Z * msc_state * list dev_op :=
  match fuel with
  | O => (None, [], s, [])
  | S fuel' =>
      let r := tud_msc_write10_cb bd lun (lba0 + xferred / block) (xferred mod block) p s in
      if msc_ret r <? 0 then (None, [msc_ret r], msc_after r, msc_dev_ops r)
      else if msc_ret r <? Z.of_nat (List.length p) then
        let '(x, rets, s', ops) :=
          write10_piece fuel' bd lun lba0 block (xferred + msc_ret r)
            (skipn (Z.to_nat (msc_ret r)) p) (msc_after r) in
        (x, msc_ret r :: rets, s', msc_dev_ops r ++ ops)
      else (Some (xferred + Z.of_nat (List.length p)), [msc_ret r], msc_after r, msc_dev_ops r)
  end.

(** A WRITE10 data stage as a sequence of pieces received from the host;
    false when a piece fails. *)
Fixpoint tinyusb_write10 (fuel : nat) (bd : blockdevice) (lun lba0 block xferred : Z)
    (pieces : list (list Z)) (s : msc_state) : bool * list Z * msc_state * list dev_op :=
  match pieces with
  | [] => (true, [], s, [])
  | p :: pieces' =>
      let '(x, rets, s1, ops1) := write10_piece fuel bd lun lba0 block xferred p s in
      match x with
      | None => (false, rets, s1, ops1)
      | Some xferred' =>
          let '(ok, rets', s', ops') :=
            tinyusb_write10 fuel bd lun lba0 block xferred' pieces' s1 in
          (ok, rets ++ rets', s', ops1 ++ ops')
      end
  end.

(* ================================================================== *)
(** ** USB string descriptors (usb_msc/usb_descriptors.c) *)

Definition TUSB_DESC_STRING : Z := 3.

Definition ascii_codes (s : string) : list Z :=
  map (fun a => Z.of_N (N_of_ascii a)) (list_ascii_of_string s).

(** [string_desc_arr], each entry as its bytes (entry 0 is the two-byte
    array of the language id). *)
Definition string_desc_arr : list (list Z) :=
  [[0x09; 0x04]; ascii_codes "PicoCalc"; ascii_codes "SD Bootloader MSC";
   ascii_codes "000000000000"; ascii_codes "Mass Storage"].

(** The words of [_desc_str] the call writes, from the header word on;
    [None] is the NULL return. [len] is a uint8_t. *)
Definition tud_descriptor_string_cb (index langid : Z) : option (list Z) :=
  if index =? 0 then
    let lang := nth 0 string_desc_arr [] in
    Some [Z.lor (Z.shiftl 1 8) TUSB_DESC_STRING;
          Z.lor (nth 0 lang 0) (Z.shiftl (nth 1 lang 0) 8)]
  else if index >=? Z.of_nat (List.length string_desc_arr) then None
  else
    let str := nth (Z.to_nat index) string_desc_arr [] in
    let len := Z.of_nat (List.length str) mod 256 in
    let len := if len >? 31 then 31 else len in
    Some (Z.lor (Z.shiftl TUSB_DESC_STRING 8) (len + 1) :: firstn (Z.to_nat len) str).

(* ================================================================== *)
(** ** Predicates and sample states used by the properties below *)

Definition event_in_range (v : Z) : Prop := EVENT_NONE < v < EVENT_MAX.

Definition exit_event (v : Z) : bool := (v =? EVENT_ESC_PRESSED) || (v =? EVENT_CARD_REMOVED).

Definition fs_detect_inv (s : fs_state) : Prop :=
  detect_irq_enabled s = true /\ cardInsertedState s = card_present (media s) /\
  (mounted s = true ->
   card_present (media s) = true /\ sd_handle s = true /\ fat_handle s = true).

Ltac fs_cases s :=
  let mnt := fresh "mnt" in let sdh := fresh "sdh" in let fath := fresh "fath" in
  let cis := fresh "cis" in let irq := fresh "irq" in let cp := fresh "cp" in
  let fm := fresh "fm" in let mw := fresh "mw" in let fw := fresh "fw" in
  destruct s as [mnt sdh fath cis irq [cp fm mw fw]];
  destruct mnt, sdh, fath, cis, irq, cp, fm, mw, fw.

(** The states of the manager from [FSManager_init] on: fs_manager.h
    requires [FSManager_init] before any other call; the manager starts
    unmounted ([mounted] is statically false). *)
Inductive fs_managed : fs_state -> Prop :=
| fm_init : forall s, mounted s = false -> fs_managed (snd (FSManager_init s))
| fm_card : forall s b, fs_managed s -> fs_managed (card_event b s)
| fm_mount : forall s, fs_managed s -> fs_managed (snd (FSManager_mount s))
| fm_unmount : forall s, fs_managed s -> fs_managed (FSManager_unmount s).

(** Boot state: nothing mounted, a formatted card in the slot. *)
Definition fs_boot : fs_state :=
  mk_fs false false false false false (mk_medium true true true true).

Definition msc_loop_inv (s : main_state) : Prop :=
  (pc s = PcMscLoop -> esc_exit s = false) /\ pc s <> PcMscStop /\ pc s <> PcRemount.

(** The bytes, return values and device operations of some first calls put
    in front of a read's result. *)
Definition read_prefix (hs rets : list Z) (ops : list dev_op)
    (r : list Z * list Z * msc_state * list dev_op) : list Z * list Z * msc_state * list dev_op :=
  let '(hs', rets', s', ops') := r in (hs ++ hs', rets ++ rets', s', ops ++ ops').

(** ** Sample inputs and auxiliary predicates of the proofs *)

Definition sample_msc_state (card : bool) : msc_state :=
  mk_msc card 512 (repeat 7 512) (repeat 0 512) 3 (-1) None.

Definition sample_blockdevice : blockdevice :=
  mk_blockdevice (fun lba => Some (repeat lba 512)) (fun _ _ => true).

Definition small_file (n : nat) : file := mk_file (repeat 0 n) false false false None.

(** A 5000-byte file of ones whose reads fail from byte 4096 on. *)
Definition partial_file : file := mk_file (repeat 1 5000) false false false (Some 4096%nat).

(** Shape of the chunks [fread] delivers: each is non-empty and at most a
    sector long, and all but the last are a full sector. *)
Fixpoint chunks_shape (n : nat) (cs : list (list Z)) : Prop :=
  match cs with
  | [] => True
  | c :: cs' =>
      (0 < List.length c <= n)%nat /\ (cs' <> [] -> List.length c = n) /\ chunks_shape n cs'
  end.

(** Layout assumptions on config.h: the region starts on a sector boundary
    and is a whole number of sectors. *)
Definition flash_layout_ok (cfg : config) : Prop :=
  SD_BOOT_FLASH_OFFSET cfg mod FLASH_SECTOR_SIZE = 0 /\
  MAX_APP_SIZE cfg mod FLASH_SECTOR_SIZE = 0 /\
  0 <= SD_BOOT_FLASH_OFFSET cfg /\ 0 <= MAX_APP_SIZE cfg.

Definition op_in_region (cfg : config) (lo : Z) (e : effect) : Prop :=
  op_offset e mod FLASH_SECTOR_SIZE = 0 /\ lo <= op_offset e /\
  op_offset e + op_length e <= SD_BOOT_FLASH_OFFSET cfg + MAX_APP_SIZE cfg.

(** The reset vector [0x10000000 + PICO_FLASH_SIZE_BYTES], the first address
    past the end of flash, with a stack pointer at the bottom of RAM. *)
Definition past_flash_end_sp : Z := 0x20000000.
Definition past_flash_end_rv (cfg : config) : Z := 0x10000000 + PICO_FLASH_SIZE_BYTES cfg.

(** Who may hold the card at each program point of [main]. *)
Definition main_inv (s : main_state) : Prop :=
  match pc s with
  | PcFsInit | PcMscPopup | PcMscInit | PcRemount => sd_dev s = false /\ msc_dev s = false
  | PcUiRun => sd_dev s = true /\ msc_dev s = false
  | PcFsDeinit | PcLaunched | PcRebooted => msc_dev s = false
  | PcMscLoop | PcMscStop => sd_dev s = false
  end.

(** Core 0 posts a harmless event, then calls MSCManager_stop before the
    third test: core 1 makes two passes and leaves. *)
Definition sample_core0_env : nat -> core0_action :=
  fun j => match j with 0%nat => Core0Post EVENT_MSC_START | 2%nat => Core0Stop | _ => Core0Idle end.

(* ================================================================== *)
(** * Properties *)

(* ------------------------------------------------------------------ *)
(** ** Event bus *)

Example event_bus_roundtrip :
  run_bus [BusPost Core1 EVENT_ESC_PRESSED; BusPost Core1 9; BusAvailable Core0;
           BusGet Core0; BusGet Core0] (mk_fifo 8 [] [])
  = ([ObsPosted true; ObsPosted false; ObsAvailable true;
      ObsGot EVENT_ESC_PRESSED; ObsGot EVENT_NONE], mk_fifo 8 [] []).
Proof. reflexivity. Qed.

Lemma event_bus_post_rejects (c : core) (ev : Z) (f : sio_fifo) :
  ~ (EVENT_NONE < ev < EVENT_MAX) -> event_bus_post c ev f = (false, f).
Proof.
  intros Hout. unfold event_bus_post, EVENT_NONE, EVENT_MAX in *.
  destruct (ev <=? 0) eqn:H1; [reflexivity|].
  destruct (ev >=? 5) eqn:H2; [reflexivity|].
  apply Z.leb_gt in H1. rewrite Z.geb_leb in H2. apply Z.leb_gt in H2. lia.
Qed.

Lemma event_bus_get_range (c : core) (f : sio_fifo) :
  let r := fst (event_bus_get c f) in r = EVENT_NONE \/ EVENT_NONE < r < EVENT_MAX.
Proof.
  unfold event_bus_get, multicore_fifo_pop_timeout_us_0.
  destruct (rx_queue c f) as [|v q]; simpl; [left; reflexivity|].
  destruct (v >? EVENT_NONE) eqn:H1; destruct (v <? EVENT_MAX) eqn:H2; simpl;
    try (left; reflexivity).
  right. rewrite Z.gtb_ltb in H1. apply Z.ltb_lt in H1. apply Z.ltb_lt in H2. lia.
Qed.

(** C7: an event value outside {MscStart, MscExit, EscPressed, CardRemoved}
    is refused by [event_bus_post] with the FIFOs untouched, so no later
    [get] or [available] of any client program can tell it was posted;
    [get] on an empty channel, or on a channel whose next raw value is
    out of range, yields EVENT_NONE (the raw value being popped and
    dropped); and [get] never yields an out-of-range value. *)
Theorem event_bus_out_of_range_never_observed (c : core) (ev : Z) (f : sio_fifo) :
  ~ (EVENT_NONE < ev < EVENT_MAX) ->
  event_bus_post c ev f = (false, f) /\
  (forall ops, run_bus (BusPost c ev :: ops) f
               = (ObsPosted false :: fst (run_bus ops f), snd (run_bus ops f))) /\
  (forall c', rx_queue c' f = [] -> event_bus_get c' f = (EVENT_NONE, f)) /\
  (forall c' rest, rx_queue c' f = ev :: rest ->
     event_bus_get c' f = (EVENT_NONE, set_rx_queue c' rest f)) /\
  (forall c', let r := fst (event_bus_get c' f) in
     r = EVENT_NONE \/ EVENT_NONE < r < EVENT_MAX).
Proof.
  intros Hout. pose proof (event_bus_post_rejects c ev f Hout) as Hpost.
  split; [exact Hpost|]. split.
  { intros ops. simpl. rewrite Hpost. destruct (run_bus ops f); reflexivity. }
  split.
  { intros c' Hq. unfold event_bus_get, multicore_fifo_pop_timeout_us_0. rewrite Hq. reflexivity. }
  split.
  { intros c' rest Hq. unfold event_bus_get, multicore_fifo_pop_timeout_us_0. rewrite Hq.
    destruct (ev >? EVENT_NONE) eqn:H1; destruct (ev <? EVENT_MAX) eqn:H2; try reflexivity.
    exfalso. apply Hout. rewrite Z.gtb_ltb in H1. apply Z.ltb_lt in H1. apply Z.ltb_lt in H2. lia. }
  intros c'. apply event_bus_get_range.
Qed.

Lemma event_bus_out_of_range_never_observed_witness :
  ~ (EVENT_NONE < 7 < EVENT_MAX) /\
  event_bus_post Core0 7 (mk_fifo 8 [7] []) = (false, mk_fifo 8 [7] []).
Proof.
  assert (H : ~ (EVENT_NONE < 7 < EVENT_MAX)) by (unfold EVENT_NONE, EVENT_MAX; lia).
  split; [exact H|].
  exact (proj1 (event_bus_out_of_range_never_observed Core0 7 (mk_fifo 8 [7] []) H)).
Defined.

(* ------------------------------------------------------------------ *)
(** ** File selection *)

Lemma c_suffix_bin_ends_with (path : string) (n : nat) :
  String.eqb (c_suffix path n) ".bin" = true ->
  exists pre, list_ascii_of_string path = pre ++ list_ascii_of_string ".bin".
Proof.
  intros H. apply String.eqb_eq in H. unfold c_suffix in H.
  exists (firstn n (list_ascii_of_string path)).
  rewrite <- H, list_ascii_of_string_of_list_ascii. symmetry. apply firstn_skipn.
Qed.

(** C9: a selected path that does not end in ".bin" (shorter paths
    included) is refused at once: the callback logs, sets the status
    "Err: FILE is not a .bin file" and returns; no flash erase or program and
    no launch is in its trace. *)
Theorem final_selection_rejects_non_bin (cfg : config) (fs : filesystem) (m : flash_mem)
    (path : string) :
  ~ (exists pre, list_ascii_of_string path = pre ++ list_ascii_of_string ".bin") ->
  final_selection_callback cfg fs m path
  = [DebugPrint "selected: %s"; DebugPrint "not a bin: %s";
     SetStatus "Err: FILE is not a .bin file"] /\
  flash_ops (final_selection_callback cfg fs m path) = [] /\
  existsb is_launch (final_selection_callback cfg fs m path) = false.
Proof.
  intros Hnot.
  assert (Hrej : final_selection_callback cfg fs m path
                 = [DebugPrint "selected: %s"; DebugPrint "not a bin: %s";
                    SetStatus "Err: FILE is not a .bin file"]).
  { unfold final_selection_callback.
    destruct (String.eqb (c_suffix path (String.length path - String.length ".bin")) ".bin")
      eqn:Heq.
    - exfalso. apply Hnot. eapply c_suffix_bin_ends_with. exact Heq.
    - rewrite orb_true_r. reflexivity. }
  rewrite Hrej. repeat split.
Qed.

Lemma final_selection_rejects_non_bin_witness :
  ~ (exists pre, list_ascii_of_string "notes.txt" = pre ++ list_ascii_of_string ".bin") /\
  flash_ops (final_selection_callback rp2040_config (fun _ => None) (fun _ => 255) "notes.txt")
  = [].
Proof.
  assert (H : ~ (exists pre, list_ascii_of_string "notes.txt"
                             = pre ++ list_ascii_of_string ".bin")).
  { intros [pre Hpre].
    assert (Hl := f_equal (@List.length ascii) Hpre).
    rewrite length_app in Hl. simpl in Hl.
    assert (Hs : skipn 5 (list_ascii_of_string "notes.txt") = list_ascii_of_string ".bin").
    { rewrite Hpre. replace 5%nat with (List.length pre) by lia.
      clear. induction pre; simpl; auto. }
    vm_compute in Hs. discriminate Hs. }
  split; [exact H|].
  exact (proj1 (proj2 (final_selection_rejects_non_bin rp2040_config (fun _ => None)
                        (fun _ => 255) "notes.txt" H))).
Defined.

(* ------------------------------------------------------------------ *)
(** ** Mass-storage callbacks *)

(** C6: with the card absent, READ10 and WRITE10 both return -1 with the
    sense NOT READY / 0x3A / 0x00 recorded for the LUN, issue no operation
    to the block device and copy nothing to the host. *)
Theorem msc_io_card_absent_not_ready (bd : blockdevice) (lun lba offset bufsize : Z)
    (buffer : list Z) (s : msc_state) :
  msc_card_inserted s = false ->
  let r := tud_msc_read10_cb bd lun lba offset bufsize s in
  let w := tud_msc_write10_cb bd lun lba offset buffer s in
  msc_ret r = -1 /\ msc_dev_ops r = [] /\ msc_host_data r = None /\
  msc_sense (msc_after r) = Some (lun, SCSI_SENSE_NOT_READY, 0x3A, 0x00) /\
  msc_ret w = -1 /\ msc_dev_ops w = [] /\
  msc_sense (msc_after w) = Some (lun, SCSI_SENSE_NOT_READY, 0x3A, 0x00).
Proof.
  intros Habs. unfold tud_msc_read10_cb, tud_msc_write10_cb. rewrite Habs.
  simpl. repeat split.
Qed.

Lemma msc_io_card_absent_not_ready_witness :
  msc_card_inserted (sample_msc_state false) = false /\
  msc_dev_ops (tud_msc_write10_cb sample_blockdevice 0 5 0 (repeat 1 512)
                 (sample_msc_state false)) = [].
Proof.
  split; [reflexivity|].
  exact (proj1 (proj2 (proj2 (proj2 (proj2 (proj2
    (msc_io_card_absent_not_ready sample_blockdevice 0 5 0 512 (repeat 1 512)
       (sample_msc_state false) eq_refl))))))).
Defined.

(** C10, as stated: every READ10 call with a non-zero offset is served
    from the cached sector, and a device read happens exactly on the calls
    with offset zero. It fails when the card is absent: the media check
    comes first, and such a call copies nothing (nor does a zero-offset call
    read). *)
Lemma msc_read10_cache_claim_counterexample :
  ~ (forall bd lun lba offset bufsize s,
       (offset <> 0 ->
        msc_dev_ops (tud_msc_read10_cb bd lun lba offset bufsize s) = [] /\
        msc_host_data (tud_msc_read10_cb bd lun lba offset bufsize s)
        = Some (copy_out (msc_read_buffer s) offset bufsize)) /\
       (msc_dev_ops (tud_msc_read10_cb bd lun lba offset bufsize s) <> [] <-> offset = 0)).
Proof.
  intros H.
  destruct (H sample_blockdevice 0 9 64 64 (sample_msc_state false)) as [H1 _].
  destruct (H1 ltac:(discriminate)) as [_ Hdata].
  vm_compute in Hdata. discriminate Hdata.
Qed.

(** C10, amended: while the card is present, a READ10 call with a non-zero
    offset (copy within the 512-byte sector buffer) issues no device read,
    leaves the module state alone, returns 1 and hands the host the bytes of
    the cached sector from that offset, whatever its lba; a call with offset
    zero issues exactly one device read, of its lba. *)
Theorem msc_read10_served_from_cache (bd : blockdevice) (lun lba offset bufsize : Z)
    (s : msc_state) :
  msc_card_inserted s = true ->
  0 <= offset -> 0 <= bufsize -> offset + bufsize <= 512 ->
  (offset <> 0 ->
     msc_dev_ops (tud_msc_read10_cb bd lun lba offset bufsize s) = [] /\
     msc_ret (tud_msc_read10_cb bd lun lba offset bufsize s) = 1 /\
     msc_host_data (tud_msc_read10_cb bd lun lba offset bufsize s)
     = Some (copy_out (msc_read_buffer s) offset bufsize) /\
     msc_after (tud_msc_read10_cb bd lun lba offset bufsize s) = s /\
     (forall lba', tud_msc_read10_cb bd lun lba' offset bufsize s
                   = tud_msc_read10_cb bd lun lba offset bufsize s)) /\
  (offset = 0 -> msc_dev_ops (tud_msc_read10_cb bd lun lba offset bufsize s) = [DevRead lba]).
Proof.
  intros Hin _ _ _. unfold tud_msc_read10_cb. rewrite Hin. simpl. split.
  - intros Hnz. apply Z.eqb_neq in Hnz. rewrite Hnz. repeat split.
  - intros Hz. subst offset. simpl. destruct (bd_read bd lba); reflexivity.
Qed.

Lemma msc_read10_served_from_cache_witness :
  msc_dev_ops (tud_msc_read10_cb sample_blockdevice 0 9 64 64 (sample_msc_state true)) = [].
Proof.
  refine (proj1 (proj1 (msc_read10_served_from_cache sample_blockdevice 0 9 64 64
                          (sample_msc_state true) eq_refl _ _ _) _)); try lia; discriminate.
Defined.

(* ------------------------------------------------------------------ *)
(** ** Filesystem manager *)

(** [FSManager_init] makes every later state satisfy [fs_detect_inv]. *)
Lemma fs_managed_inv (s : fs_state) : fs_managed s -> fs_detect_inv s.
Proof.
  induction 1 as [s Hm|s b _ IH|s _ IH|s _ IH].
  - revert Hm. fs_cases s; cbv; intuition congruence.
  - revert IH. destruct b; fs_cases s; cbv; intuition congruence.
  - revert IH. fs_cases s; cbv; intuition congruence.
  - revert IH. fs_cases s; cbv; intuition congruence.
Qed.

(** C8: in every state the manager reaches once [FSManager_init] has run
    (card insertions and removals, mounts and unmounts in any order),
    mount() on a mounted manager is a no-op that succeeds, and mount() twice
    gives the result and the state of mount() once; mount() with the card
    absent fails and changes nothing; unmount() is idempotent, leaves a
    manager that is not mounted unchanged, and always ends unmounted. *)
Theorem fsmanager_mount_unmount_idempotent (s : fs_state) :
  fs_managed s ->
  (mounted s = true -> FSManager_mount s = (true, s)) /\
  FSManager_mount (snd (FSManager_mount s)) = FSManager_mount s /\
  (card_present (media s) = false -> FSManager_mount s = (false, s)) /\
  FSManager_unmount (FSManager_unmount s) = FSManager_unmount s /\
  (mounted s = false -> FSManager_unmount s = s) /\
  mounted (FSManager_unmount s) = false.
Proof.
  intros Hs. pose proof (fs_managed_inv s Hs) as Hinv. revert Hinv.
  fs_cases s; cbv; intuition congruence.
Qed.

(** The card pulled after a boot with the card in: mount() fails. *)
Lemma fsmanager_mount_unmount_idempotent_witness :
  fs_managed (card_event false (snd (FSManager_init fs_boot))) /\
  FSManager_mount (card_event false (snd (FSManager_init fs_boot)))
  = (false, card_event false (snd (FSManager_init fs_boot))).
Proof.
  assert (H : fs_managed (card_event false (snd (FSManager_init fs_boot)))).
  { apply fm_card, fm_init. reflexivity. }
  split; [exact H|].
  apply (fsmanager_mount_unmount_idempotent _ H). reflexivity.
Defined.

(* ------------------------------------------------------------------ *)
(** ** Flash program loader *)

Example load_program_two_sectors :
  flash_ops (snd (load_program rp2040_config (fun _ => Some (small_file 5000))
                    (fun _ => 255) "app.bin"))
  = [FlashErase 262144 4096; FlashProgram 262144 (repeat 0 4096);
     FlashErase 266240 4096; FlashProgram 266240 (repeat 0 904)].
Proof. vm_compute. reflexivity. Qed.

(** C4: a file whose size is 0, cannot be obtained (the seek to the end or
    [ftell] fails) or exceeds MAX_APP_SIZE makes [load_program] return false
    before the erase/program loop: the only effect is one debug line
    ("seek err", "invalid size" for 0 and for a failed [ftell], "file too
    large" above MAX_APP_SIZE), no flash operation is issued, and flash,
    in particular the two header words at SD_BOOT_FLASH_OFFSET, is as it was. *)
Theorem load_program_bad_size_touches_no_flash (cfg : config) (fs : filesystem)
    (m : flash_mem) (path : string) (fp : file) :
  fs path = Some fp ->
  (seek_end_fails fp = true \/ ftell_fails fp = true \/ file_data fp = [] \/
   Z.of_nat (List.length (file_data fp)) > MAX_APP_SIZE cfg) ->
  load_program cfg fs m path
  = (false, [DebugPrint (if seek_end_fails fp then "seek err: %s"
                         else if ftell_fails fp || (List.length (file_data fp) =? 0)%nat
                         then "invalid size: %ld"
                         else "file too large: %ld > %d")]) /\
  flash_ops (snd (load_program cfg fs m path)) = [] /\
  apply_flash (snd (load_program cfg fs m path)) m = m /\
  read_word (apply_flash (snd (load_program cfg fs m path)) m) (SD_BOOT_FLASH_OFFSET cfg)
  = read_word m (SD_BOOT_FLASH_OFFSET cfg) /\
  read_word (apply_flash (snd (load_program cfg fs m path)) m) (SD_BOOT_FLASH_OFFSET cfg + 4)
  = read_word m (SD_BOOT_FLASH_OFFSET cfg + 4).
Proof.
  intros Hfs Hbad.
  assert (Hl : load_program cfg fs m path
               = (false, [DebugPrint (if seek_end_fails fp then "seek err: %s"
                          else if ftell_fails fp || (List.length (file_data fp) =? 0)%nat
                          then "invalid size: %ld"
                          else "file too large: %ld > %d")])).
  { unfold load_program. rewrite Hfs.
    destruct (seek_end_fails fp) eqn:Hse; [reflexivity|].
    destruct (ftell_fails fp) eqn:Hft; [reflexivity|]. simpl.
    destruct (file_data fp) as [|b bs] eqn:Hd; [reflexivity|].
    simpl (List.length (b :: bs) =? 0)%nat. cbv iota beta.
    destruct Hbad as [H|[H|[H|H]]]; try discriminate.
    assert (Hpos : 0 < Z.of_nat (List.length (b :: bs))) by (simpl; lia).
    destruct (Z.of_nat (List.length (b :: bs)) <=? 0) eqn:H0; [apply Z.leb_le in H0; lia|].
    destruct (Z.of_nat (List.length (b :: bs)) >? MAX_APP_SIZE cfg) eqn:H1; [reflexivity|].
    rewrite Z.gtb_ltb in H1. apply Z.ltb_ge in H1. lia. }
  rewrite Hl. repeat split.
Qed.

Lemma load_program_bad_size_touches_no_flash_witness :
  load_program rp2040_config (fun _ => Some (small_file 0)) (fun _ => 255) "empty.bin"
  = (false, [DebugPrint "invalid size: %ld"]).
Proof.
  exact (proj1 (load_program_bad_size_touches_no_flash rp2040_config
                  (fun _ => Some (small_file 0)) (fun _ => 255) "empty.bin" (small_file 0)
                  eq_refl (or_intror (or_intror (or_introl eq_refl))))).
Defined.

Lemma fread_chunks_nil (fuel n : nat) (l : list Z) :
  fread_chunks fuel n l <> [] -> l <> [].
Proof.
  destruct fuel; simpl; [congruence|]. destruct l; congruence.
Qed.

Lemma fread_chunks_shape (fuel n : nat) (l : list Z) :
  (0 < n)%nat -> (List.length l <= fuel)%nat -> chunks_shape n (fread_chunks fuel n l).
Proof.
  revert l. induction fuel as [|fuel IH]; intros l Hn Hlen; simpl; [exact I|].
  destruct l as [|x xs]; [exact I|].
  set (l := x :: xs) in *.
  assert (Hl : (0 < List.length l)%nat) by (subst l; simpl; lia).
  repeat split.
  - rewrite length_firstn. lia.
  - rewrite length_firstn. lia.
  - intros Hne. apply fread_chunks_nil in Hne.
    assert (Hs : (0 < List.length (skipn n l))%nat)
      by (destruct (skipn n l); [congruence | simpl; lia]).
    rewrite length_skipn in Hs. rewrite length_firstn. lia.
  - apply IH; [exact Hn|]. rewrite length_skipn. lia.
Qed.

Lemma file_chunks_shape (data : list Z) :
  chunks_shape (Z.to_nat FLASH_SECTOR_SIZE) (file_chunks data).
Proof.
  unfold file_chunks. apply fread_chunks_shape; [unfold FLASH_SECTOR_SIZE; lia | lia].
Qed.

Lemma sorted_cons_lower (x : Z) (l : list Z) :
  Sorted Z.le l -> Forall (fun y => x <= y) l -> Sorted Z.le (x :: l).
Proof.
  intros Hs Hf. constructor; [exact Hs|].
  destruct l as [|y l]; constructor. inversion Hf; assumption.
Qed.

Lemma Forall_op_in_region_weaken (cfg : config) (lo lo' : Z) (l : list effect) :
  lo' <= lo -> Forall (op_in_region cfg lo) l -> Forall (op_in_region cfg lo') l.
Proof.
  intros Hle. apply Forall_impl. intros e (H1 & H2 & H3). unfold op_in_region. lia.
Qed.

Lemma program_loop_ops (cfg : config) (cs : list (list Z)) (ps : Z) :
  flash_layout_ok cfg ->
  chunks_shape (Z.to_nat FLASH_SECTOR_SIZE) cs ->
  0 <= ps -> ps mod FLASH_SECTOR_SIZE = 0 ->
  let ops := flash_ops (snd (program_loop cfg cs ps)) in
  Forall (op_in_region cfg (SD_BOOT_FLASH_OFFSET cfg + ps)) ops /\
  Sorted Z.le (map op_offset ops) /\
  (forall e rest, ops = e :: rest -> op_offset e = SD_BOOT_FLASH_OFFSET cfg + ps).
Proof.
  intros (Hoff & Hmax & Hoff0 & Hmax0).
  revert ps. induction cs as [|c cs' IH]; intros ps Hshape Hps Hpsal; simpl.
  { repeat split; [constructor | constructor | discriminate]. }
  destruct Hshape as (Hlen & Hfull & Hshape').
  unfold FLASH_SECTOR_SIZE in *. simpl in Hlen, Hfull.
  destruct (ps + Z.of_nat (List.length c) >? MAX_APP_SIZE cfg) eqn:Hover.
  { simpl. repeat split; [constructor | constructor | discriminate]. }
  rewrite Z.gtb_ltb in Hover. apply Z.ltb_ge in Hover.
  (* the offset of this pair is a sector boundary strictly below the end *)
  apply Z.mod_divide in Hoff; [|lia]. apply Z.mod_divide in Hmax; [|lia].
  apply Z.mod_divide in Hpsal; [|lia].
  destruct Hoff as [a Ha]. destruct Hmax as [b Hb]. destruct Hpsal as [k Hk].
  assert (Hroom : ps + 4096 <= MAX_APP_SIZE cfg) by lia.
  destruct (program_loop cfg cs' (ps + Z.of_nat (List.length c))) as [ok es] eqn:Hrec.
  simpl.
  assert (Hrest : Forall (op_in_region cfg (SD_BOOT_FLASH_OFFSET cfg + ps + 4096)) (flash_ops es)
                  /\ Sorted Z.le (map op_offset (flash_ops es))).
  { destruct cs' as [|c' cs''].
    - simpl in Hrec. injection Hrec as _ <-. simpl. split; constructor.
    - assert (Hc : List.length c = 4096%nat) by (apply Hfull; discriminate).
      assert (Hc' : Z.of_nat (List.length c) = 4096) by (rewrite Hc; reflexivity).
      rewrite Hc' in Hrec.
      destruct (IH (ps + 4096) Hshape' ltac:(lia)) as (H1 & H2 & _).
      { rewrite Hk. replace (k * 4096 + 4096) with ((k + 1) * 4096) by ring.
        apply Z_mod_mult. }
      rewrite Hrec in H1, H2. simpl in H1, H2.
      replace (SD_BOOT_FLASH_OFFSET cfg + ps + 4096)
        with (SD_BOOT_FLASH_OFFSET cfg + (ps + 4096)) by ring.
      split; assumption. }
  destruct Hrest as [Hin Hsort].
  assert (Hal : (SD_BOOT_FLASH_OFFSET cfg + ps) mod 4096 = 0).
  { rewrite Ha, Hk. replace (a * 4096 + k * 4096) with ((a + k) * 4096) by ring.
    apply Z_mod_mult. }
  repeat split.
  - constructor; [unfold op_in_region; simpl; unfold FLASH_SECTOR_SIZE; lia|].
    constructor; [unfold op_in_region; simpl; unfold FLASH_SECTOR_SIZE; lia|].
    eapply Forall_op_in_region_weaken; [|exact Hin]. lia.
  - simpl. apply sorted_cons_lower.
    + apply sorted_cons_lower; [exact Hsort|].
      apply Forall_map. eapply Forall_impl; [|exact Hin].
      intros e (_ & He & _). lia.
    + constructor; [simpl; lia|].
      apply Forall_map. eapply Forall_impl; [|exact Hin].
      intros e (_ & He & _). lia.
  - intros e rest Heq. injection Heq as <- _. reflexivity.
Qed.

(** C3: for every file, the flash erase and program calls of
    [load_program] start at SD_BOOT_FLASH_OFFSET (the region's base), sit on
    sector boundaries, come in non-decreasing offset order, and each one
    (a whole-sector erase or a program of the chunk) lies inside
    [base, base + MAX_APP_SIZE), whatever the size of the file; the region
    is assumed sector-aligned and a whole number of sectors. *)
Theorem load_program_flash_writes_in_region (cfg : config) (fs : filesystem)
    (m : flash_mem) (path : string) :
  flash_layout_ok cfg ->
  Forall (op_in_region cfg (SD_BOOT_FLASH_OFFSET cfg))
         (flash_ops (snd (load_program cfg fs m path))) /\
  Sorted Z.le (map op_offset (flash_ops (snd (load_program cfg fs m path)))) /\
  (forall e rest, flash_ops (snd (load_program cfg fs m path)) = e :: rest ->
                  op_offset e = SD_BOOT_FLASH_OFFSET cfg).
Proof.
  intros Hcfg. unfold load_program.
  destruct (fs path) as [fp|]; [|simpl; repeat split; [constructor|constructor|discriminate]].
  destruct (seek_end_fails fp); [simpl; repeat split; [constructor|constructor|discriminate]|].
  destruct (_ <=? 0); [simpl; repeat split; [constructor|constructor|discriminate]|].
  destruct (_ >? MAX_APP_SIZE cfg); [simpl; repeat split; [constructor|constructor|discriminate]|].
  destruct (seek_set_fails fp); [simpl; repeat split; [constructor|constructor|discriminate]|].
  destruct (program_loop_ops cfg (file_chunks (readable_data fp)) 0 Hcfg
              (file_chunks_shape _) ltac:(lia) eq_refl) as (H1 & H2 & H3).
  destruct (program_loop cfg (file_chunks (readable_data fp)) 0) as [ok es]. simpl in *.
  rewrite Z.add_0_r in H1, H3. auto.
Qed.

Lemma load_program_flash_writes_in_region_witness :
  flash_layout_ok rp2040_config /\
  Sorted Z.le (map op_offset (flash_ops (snd (load_program rp2040_config
     (fun _ => Some (small_file 5000)) (fun _ => 255) "app.bin")))).
Proof.
  assert (H : flash_layout_ok rp2040_config)
    by (unfold flash_layout_ok; repeat split; vm_compute; congruence).
  split; [exact H|].
  exact (proj1 (proj2 (load_program_flash_writes_in_region rp2040_config
                         (fun _ => Some (small_file 5000)) (fun _ => 255) "app.bin" H))).
Defined.

(* ------------------------------------------------------------------ *)
(** ** Application launcher *)

(** What [is_valid_application] accepts: both bounds of each word are
    inclusive, and the reset vector is bounded by the end of the whole flash. *)
Lemma is_valid_application_iff (cfg : config) (sp rv : Z) :
  is_valid_application cfg sp rv = true <->
  (0x20000000 <= sp <= MAX_RAM cfg /\
   0x10000000 + SD_BOOT_FLASH_OFFSET cfg <= rv <= 0x10000000 + PICO_FLASH_SIZE_BYTES cfg).
Proof.
  unfold is_valid_application. rewrite !Z.gtb_ltb.
  destruct (Z.ltb_spec sp 0x20000000); destruct (Z.ltb_spec (MAX_RAM cfg) sp);
    destruct (Z.ltb_spec rv (0x10000000 + SD_BOOT_FLASH_OFFSET cfg));
    destruct (Z.ltb_spec (0x10000000 + PICO_FLASH_SIZE_BYTES cfg) rv);
    cbn [orb]; split; intros; try lia; discriminate.
Qed.

(** C5 (the defect): for any configuration whose application region lies
    in flash, the header (bottom of RAM, first address past the end of
    flash) is accepted although its reset vector is outside the region's
    address window; on the RP2040-shaped configuration the check returns
    true for it. *)
Theorem is_valid_application_accepts_past_flash_end :
  is_valid_application rp2040_config past_flash_end_sp (past_flash_end_rv rp2040_config)
  = true /\
  (forall cfg, 0x20000000 <= MAX_RAM cfg ->
     0 <= SD_BOOT_FLASH_OFFSET cfg <= PICO_FLASH_SIZE_BYTES cfg ->
     SD_BOOT_FLASH_OFFSET cfg + MAX_APP_SIZE cfg <= PICO_FLASH_SIZE_BYTES cfg ->
     is_valid_application cfg past_flash_end_sp (past_flash_end_rv cfg) = true /\
     ~ (XIP_BASE + SD_BOOT_FLASH_OFFSET cfg <= past_flash_end_rv cfg
        < XIP_BASE + SD_BOOT_FLASH_OFFSET cfg + MAX_APP_SIZE cfg)).
Proof.
  split; [reflexivity|].
  intros cfg Hram Hoff Hreg. split.
  - apply is_valid_application_iff. unfold past_flash_end_sp, past_flash_end_rv. lia.
  - unfold past_flash_end_rv, XIP_BASE. lia.
Qed.

(** Nothing before the launch decision launches. *)
Lemma program_loop_no_launch (cfg : config) (cs : list (list Z)) (ps : Z) :
  existsb is_launch (snd (program_loop cfg cs ps)) = false.
Proof.
  revert ps. induction cs as [|c cs IH]; intros ps; simpl; [reflexivity|].
  destruct (_ >? _); [reflexivity|].
  specialize (IH (ps + Z.of_nat (List.length c))).
  destruct (program_loop cfg cs _) as [ok es]. exact IH.
Qed.

Lemma load_program_no_launch (cfg : config) (fs : filesystem) (m : flash_mem) (path : string) :
  existsb is_launch (snd (load_program cfg fs m path)) = false.
Proof.
  unfold load_program. destruct (fs path) as [fp|]; [|reflexivity].
  destruct (seek_end_fails fp); [reflexivity|].
  destruct (_ <=? 0); [reflexivity|].
  destruct (_ >? _); [reflexivity|].
  destruct (seek_set_fails fp); [reflexivity|].
  pose proof (program_loop_no_launch cfg (file_chunks (readable_data fp)) 0) as H.
  destruct (program_loop _ _ _) as [ok es]. exact H.
Qed.

(** C2, as stated: no launch unless a validated image is resident. An
    8-byte file of zeros loads successfully over erased flash; neither the
    old header (all 0xFF) nor the new one (stack pointer 0) validates, and
    the trace still ends in the launch. *)
Lemma load_firmware_unvalidated_launch_counterexample :
  let fs := fun _ : string => Some (small_file 8) in
  let m := fun _ : Z => 255 in
  resident_header_valid rp2040_config m = false /\
  fst (load_program rp2040_config fs m "app.bin") = true /\
  resident_header_valid rp2040_config
    (apply_flash (snd (load_program rp2040_config fs m "app.bin")) m) = false /\
  existsb is_launch (load_firmware_by_path rp2040_config fs m "app.bin") = true.
Proof. vm_compute. repeat split. Qed.

(** C2, amended: [load_firmware_by_path] jumps into the application exactly
    when [load_program] succeeded or the header resident at the region's
    base after the load attempt validates; when the load failed and that
    header does not validate, no launch is attempted: the trace ends with
    the status "ERR: No valid app", a 2000 ms wait and a watchdog reboot. *)
Theorem load_firmware_launch_decision (cfg : config) (fs : filesystem) (m : flash_mem)
    (path : string) :
  existsb is_launch (load_firmware_by_path cfg fs m path)
  = fst (load_program cfg fs m path)
    || resident_header_valid cfg (apply_flash (snd (load_program cfg fs m path)) m) /\
  (fst (load_program cfg fs m path) = false ->
   resident_header_valid cfg (apply_flash (snd (load_program cfg fs m path)) m) = false ->
   load_firmware_by_path cfg fs m path
   = SetStatus "STAT: loading app..." :: snd (load_program cfg fs m path) ++
     [SetStatus "ERR: No valid app"; DebugPrint "no valid app, halting"; SleepMs 2000;
      WatchdogReboot]).
Proof.
  pose proof (load_program_no_launch cfg fs m path) as Hno.
  unfold load_firmware_by_path.
  destruct (load_program cfg fs m path) as [ok es]. cbn [fst snd] in *. split.
  - cbn [existsb is_launch]. rewrite existsb_app, Hno. cbn [orb].
    destruct (ok || resident_header_valid cfg (apply_flash es m)); reflexivity.
  - intros -> Hv. rewrite Hv. reflexivity.
Qed.

(* ------------------------------------------------------------------ *)
(** ** Main control loop *)

Lemma main_inv_initial (s : main_state) : main_initial s -> main_inv s.
Proof.
  intros (Hpc & Hsd & _ & Hmsc). unfold main_inv. rewrite Hpc. auto.
Qed.

Lemma main_inv_step (s s' : main_state) : main_inv s -> main_step s s' -> main_inv s'.
Proof.
  unfold main_inv. intros Hinv Hstep.
  destruct Hstep as [s b Ht|s ok Hpc|s o Hpc|s Hpc|s Hpc|s created Hpc|s Hpc He
                    |s Hpc He|s Hpc|s ok Hpc]; cbn [pc sd_dev msc_dev];
    try rewrite Hpc in Hinv.
  - exact Hinv.
  - destruct ok; cbn [pc]; tauto.
  - destruct o; cbn [ui_next]; tauto.
  - auto.
  - exact Hinv.
  - tauto.
  - rewrite Hpc. exact Hinv.
  - exact Hinv.
  - tauto.
  - destruct ok; tauto.
Qed.

Lemma main_reachable_inv (s : main_state) : main_reachable s -> main_inv s.
Proof.
  induction 1 as [s Hinit|s s' _ IH Hstep].
  - apply main_inv_initial; exact Hinit.
  - eapply main_inv_step; eassumption.
Qed.

Lemma main_inv_exclusive (s : main_state) :
  main_inv s -> ~ (sd_dev s = true /\ msc_dev s = true).
Proof.
  unfold main_inv. intros Hinv [Hsd Hmsc].
  destruct (pc s); intuition congruence.
Qed.

(** C1: along every run of [main] (card pulled or inserted at any moment,
    the mass-storage loop included), the filesystem's handles ([sd] of
    main.c) and the mass-storage adapter's block device ([msc_blockdev]) are
    never held at once; while browsing the filesystem alone holds the card;
    a step that leaves the adapter holding the card starts and ends with the
    filesystem released ([fs_deinit] before [usb_msc_init]), and a step that
    leaves the filesystem holding it starts and ends with the adapter's
    device released ([usb_msc_stop] before the remount). *)
Theorem main_loop_storage_exclusive (s : main_state) :
  main_reachable s ->
  ~ (sd_dev s = true /\ msc_dev s = true) /\
  (pc s = PcUiRun -> sd_dev s = true /\ msc_dev s = false) /\
  (forall s', main_step s s' ->
     (msc_dev s' = true -> sd_dev s = false /\ sd_dev s' = false) /\
     (sd_dev s' = true -> msc_dev s = false /\ msc_dev s' = false)).
Proof.
  intros Hr. pose proof (main_reachable_inv s Hr) as Hinv.
  split; [apply main_inv_exclusive; exact Hinv|].
  split; [intros Hpc; unfold main_inv in Hinv; rewrite Hpc in Hinv; exact Hinv|].
  intros s' Hstep.
  pose proof (main_inv_exclusive s' (main_inv_step s s' Hinv Hstep)) as Hex'.
  pose proof (main_inv_exclusive s Hinv) as Hex.
  unfold main_inv in Hinv.
  destruct Hstep as [s b Ht|s ok Hpc|s o Hpc|s Hpc|s Hpc|s created Hpc|s Hpc He
                    |s Hpc He|s Hpc|s ok Hpc]; cbn [pc sd_dev msc_dev] in *;
    try rewrite Hpc in Hinv; cbv iota in Hinv;
    destruct (sd_dev s), (msc_dev s); try destruct created;
    intuition congruence.
Qed.

(** A run that pulls the card while the mass-storage loop is running. *)
Lemma main_loop_storage_exclusive_witness :
  main_reachable (mk_main PcMscLoop false false true false false) /\
  ~ (sd_dev (mk_main PcMscLoop false false true false false) = true /\
     msc_dev (mk_main PcMscLoop false false true false false) = true).
Proof.
  assert (R : main_reachable (mk_main PcMscLoop false false true false false)).
  { apply reach_step with (s := mk_main PcMscLoop false false true false true).
    2: exact (step_card (mk_main PcMscLoop false false true false true) false eq_refl).
    apply reach_step with (s := mk_main PcMscInit false false false false true).
    2: exact (step_msc_init (mk_main PcMscInit false false false false true) true eq_refl).
    apply reach_step with (s := mk_main PcMscPopup false false false false true).
    2: exact (step_popup (mk_main PcMscPopup false false false false true) eq_refl).
    apply reach_step with (s := mk_main PcFsDeinit true true false false true).
    2: exact (step_fs_deinit (mk_main PcFsDeinit true true false false true) eq_refl).
    apply reach_step with (s := mk_main PcUiRun true true false false true).
    2: exact (step_ui (mk_main PcUiRun true true false false true) UiMscRequested eq_refl).
    apply reach_step with (s := mk_main PcFsInit false false false false true).
    2: exact (step_fs_init (mk_main PcFsInit false false false false true) true eq_refl).
    apply reach_init. repeat split. }
  split; [exact R|].
  exact (proj1 (main_loop_storage_exclusive _ R)).
Defined.

(* ================================================================== *)
(** * Further properties of the code *)

(* ------------------------------------------------------------------ *)
(** ** Event bus: FIFO order *)

(* ------------------------------------------------------------------ *)
(** ** Event bus, queues *)

Lemma rx_queue_set (c : core) (q : list Z) (f : sio_fifo) :
  rx_queue c (set_rx_queue c q f) = q.
Proof. destruct c; reflexivity. Qed.

Lemma rx_queue_set_other (c : core) (q : list Z) (f : sio_fifo) :
  rx_queue (other_core c) (set_rx_queue c q f) = rx_queue (other_core c) f.
Proof. destruct c; reflexivity. Qed.

Lemma set_rx_queue_twice (c : core) (q q' : list Z) (f : sio_fifo) :
  set_rx_queue c q (set_rx_queue c q' f) = set_rx_queue c q f.
Proof. destruct c; reflexivity. Qed.

Lemma set_rx_queue_same (c : core) (f : sio_fifo) : set_rx_queue c (rx_queue c f) f = f.
Proof. destruct c, f; reflexivity. Qed.

Lemma fifo_depth_set (c : core) (q : list Z) (f : sio_fifo) :
  fifo_depth (set_rx_queue c q f) = fifo_depth f.
Proof. destruct c; reflexivity. Qed.

Lemma other_core_involutive (c : core) : other_core (other_core c) = c.
Proof. destruct c; reflexivity. Qed.

Lemma event_range_test (v : Z) :
  event_in_range v -> (v <=? EVENT_NONE) || (v >=? EVENT_MAX) = false.
Proof.
  unfold event_in_range. intros [H1 H2].
  apply orb_false_iff. split; [apply Z.leb_gt; lia|]. rewrite Z.geb_leb. apply Z.leb_gt; lia.
Qed.

Lemma event_range_test_out (v : Z) :
  ~ event_in_range v -> (v <=? EVENT_NONE) || (v >=? EVENT_MAX) = true.
Proof.
  unfold event_in_range. intros H.
  destruct (Z.leb_spec v EVENT_NONE); [reflexivity|]. rewrite Z.geb_leb.
  destruct (Z.leb_spec EVENT_MAX v); [reflexivity|]. lia.
Qed.

Lemma event_get_test (v : Z) :
  event_in_range v -> (v >? EVENT_NONE) && (v <? EVENT_MAX) = true.
Proof.
  unfold event_in_range. intros [H1 H2]. rewrite Z.gtb_ltb.
  apply andb_true_iff; split; apply Z.ltb_lt; lia.
Qed.

Lemma event_get_test_out (v : Z) :
  ~ event_in_range v -> (v >? EVENT_NONE) && (v <? EVENT_MAX) = false.
Proof.
  unfold event_in_range. intros H. rewrite Z.gtb_ltb.
  destruct (Z.ltb_spec EVENT_NONE v); [|reflexivity].
  destruct (Z.ltb_spec v EVENT_MAX); [lia|reflexivity].
Qed.

Lemma run_bus_app (a b : list bus_op) (f : sio_fifo) :
  run_bus (a ++ b) f =
  (fst (run_bus a f) ++ fst (run_bus b (snd (run_bus a f))), snd (run_bus b (snd (run_bus a f)))).
Proof.
  revert f. induction a as [|op a IH]; intros f; simpl.
  - destruct (run_bus b f); reflexivity.
  - destruct op as [c ev|c|c].
    + destruct (event_bus_post c ev f) as [ok f1]. rewrite IH.
      destruct (run_bus a f1); reflexivity.
    + rewrite IH. destruct (run_bus a f); reflexivity.
    + destruct (event_bus_get c f) as [ev f1]. rewrite IH.
      destruct (run_bus a f1); reflexivity.
Qed.

Lemma run_bus_posts (c : core) (evs : list Z) (f : sio_fifo) :
  Forall event_in_range evs ->
  (List.length (rx_queue (other_core c) f) + List.length evs <= fifo_depth f)%nat ->
  run_bus (map (BusPost c) evs) f
  = (map (fun _ => ObsPosted true) evs,
     set_rx_queue (other_core c) (rx_queue (other_core c) f ++ evs) f).
Proof.
  revert f. induction evs as [|e evs IH]; intros f Hr Hlen; simpl.
  - rewrite app_nil_r, set_rx_queue_same. reflexivity.
  - inversion Hr as [|? ? He Hr']; subst.
    unfold event_bus_post. rewrite (event_range_test e He).
    assert (Hw : multicore_fifo_wready c f = true).
    { unfold multicore_fifo_wready. apply Nat.ltb_lt. simpl in Hlen. lia. }
    rewrite Hw. unfold multicore_fifo_push_blocking.
    rewrite IH; [| exact Hr' |].
    + rewrite rx_queue_set, set_rx_queue_twice, <- app_assoc. reflexivity.
    + rewrite rx_queue_set, fifo_depth_set, length_app. simpl in *. lia.
Qed.

Lemma run_bus_gets (c : core) (q : list Z) (f : sio_fifo) :
  Forall event_in_range q -> rx_queue c f = q ->
  run_bus (map (fun _ => BusGet c) q) f = (map ObsGot q, set_rx_queue c [] f).
Proof.
  revert f. induction q as [|v q IH]; intros f Hr Hq; simpl.
  - rewrite <- Hq, set_rx_queue_same. reflexivity.
  - inversion Hr as [|? ? Hv Hr']; subst.
    unfold event_bus_get, multicore_fifo_pop_timeout_us_0. rewrite Hq.
    rewrite (event_get_test v Hv).
    rewrite IH; [| exact Hr' | apply rx_queue_set].
    rewrite set_rx_queue_twice. reflexivity.
Qed.

(** X1: events posted by one core, as many as the FIFO holds, are all
    accepted and are got by the other core in the order posted; the FIFOs
    end as they started. *)
Theorem event_bus_fifo_order (c : core) (evs : list Z) (f : sio_fifo) :
  Forall (fun v => EVENT_NONE < v < EVENT_MAX) evs ->
  rx_queue (other_core c) f = [] ->
  (List.length evs <= fifo_depth f)%nat ->
  run_bus (map (BusPost c) evs ++ map (fun _ => BusGet (other_core c)) evs) f
  = (map (fun _ => ObsPosted true) evs ++ map ObsGot evs, f).
Proof.
  intros Hr Hq Hlen. rewrite run_bus_app.
  rewrite run_bus_posts; [| exact Hr | rewrite Hq; simpl; lia].
  cbn [fst snd]. rewrite Hq. simpl.
  rewrite run_bus_gets; [| exact Hr | apply rx_queue_set].
  cbn [fst snd]. rewrite set_rx_queue_twice, <- Hq, set_rx_queue_same. reflexivity.
Qed.

Lemma event_bus_fifo_order_witness :
  run_bus (map (BusPost Core0) [1; 3; 4] ++ map (fun _ => BusGet Core1) [1; 3; 4])
          (mk_fifo 8 [2] [])
  = ([ObsPosted true; ObsPosted true; ObsPosted true; ObsGot 1; ObsGot 3; ObsGot 4],
     mk_fifo 8 [2] []).
Proof.
  apply (event_bus_fifo_order Core0 [1; 3; 4] (mk_fifo 8 [2] [])).
  - repeat constructor; unfold EVENT_NONE, EVENT_MAX; lia.
  - reflexivity.
  - simpl; lia.
Defined.

(* ------------------------------------------------------------------ *)
(** ** Event bus: bounds, blocking calls, draining *)

(** X3: the blocking calls. A valid event posted into an empty channel is
    got back by the other core's blocking get, and the FIFOs are as
    before; an invalid event makes the blocking post return at once with
    nothing pushed, and a blocking get on that channel keeps waiting. *)
Theorem event_bus_blocking_roundtrip (c : core) (ev : Z) (f : sio_fifo) :
  rx_queue (other_core c) f = [] -> (0 < fifo_depth f)%nat ->
  (EVENT_NONE < ev < EVENT_MAX ->
   exists f1, event_bus_post_blocking c ev f = Some f1 /\
              rx_queue (other_core c) f1 = [ev] /\
              event_bus_get_blocking (other_core c) f1 = Some (ev, f)) /\
  (~ (EVENT_NONE < ev < EVENT_MAX) ->
   event_bus_post_blocking c ev f = Some f /\
   event_bus_get_blocking (other_core c) f = None).
Proof.
  intros Hq Hd. split.
  - intros Hr. unfold event_bus_post_blocking.
    rewrite (event_range_test ev Hr).
    assert (Hw : multicore_fifo_wready c f = true).
    { unfold multicore_fifo_wready. rewrite Hq. apply Nat.ltb_lt. exact Hd. }
    rewrite Hw. eexists; split; [reflexivity|].
    unfold multicore_fifo_push_blocking. rewrite Hq. simpl.
    split; [apply rx_queue_set|].
    unfold event_bus_get_blocking, multicore_fifo_pop_blocking. rewrite rx_queue_set.
    rewrite (event_get_test ev Hr), set_rx_queue_twice, <- Hq, set_rx_queue_same.
    reflexivity.
  - intros Hr. unfold event_bus_post_blocking. rewrite (event_range_test_out ev Hr).
    split; [reflexivity|].
    unfold event_bus_get_blocking, multicore_fifo_pop_blocking. rewrite Hq. reflexivity.
Qed.

Lemma event_bus_blocking_roundtrip_witness :
  exists f1, event_bus_post_blocking Core1 EVENT_MSC_EXIT (mk_fifo 4 [] []) = Some f1 /\
             rx_queue Core0 f1 = [EVENT_MSC_EXIT] /\
             event_bus_get_blocking Core0 f1 = Some (EVENT_MSC_EXIT, mk_fifo 4 [] []).
Proof.
  exact (proj1 (event_bus_blocking_roundtrip Core1 EVENT_MSC_EXIT (mk_fifo 4 [] [])
                  eq_refl ltac:(simpl; lia))
               ltac:(unfold EVENT_NONE, EVENT_MSC_EXIT, EVENT_MAX; lia)).
Defined.

Lemma fifo_drain_empties (c : core) (q : list Z) (f : sio_fifo) :
  rx_queue c f = q -> fifo_drain (List.length q) c f = set_rx_queue c [] f.
Proof.
  revert f. induction q as [|v q IH]; intros f Hq; simpl.
  - rewrite <- Hq, set_rx_queue_same. reflexivity.
  - unfold multicore_fifo_rvalid, multicore_fifo_pop_blocking. rewrite Hq.
    rewrite IH; [apply set_rx_queue_twice | apply rx_queue_set].
Qed.

(** X4: [event_bus_clear] (and [event_bus_init], the same loop) empties the
    calling core's receive queue and nothing else: the queue towards the
    other core and the depth are unchanged, [available] then reports
    nothing and [get] yields EVENT_NONE. *)
Theorem event_bus_clear_drains (c : core) (f : sio_fifo) :
  event_bus_clear c f = set_rx_queue c [] f /\
  event_bus_init c f = set_rx_queue c [] f /\
  rx_queue (other_core c) (event_bus_clear c f) = rx_queue (other_core c) f /\
  event_bus_available c (event_bus_clear c f) = false /\
  event_bus_get c (event_bus_clear c f) = (EVENT_NONE, event_bus_clear c f).
Proof.
  assert (H : event_bus_clear c f = set_rx_queue c [] f)
    by (apply fifo_drain_empties; reflexivity).
  split; [exact H|]. split; [apply fifo_drain_empties; reflexivity|].
  rewrite H. split; [apply rx_queue_set_other|].
  unfold event_bus_available, multicore_fifo_rvalid, event_bus_get,
    multicore_fifo_pop_timeout_us_0. rewrite rx_queue_set. split; reflexivity.
Qed.

(* ------------------------------------------------------------------ *)
(** ** Core 1 mass-storage manager and input manager *)

Lemma exit_event_in_range (v : Z) : exit_event v = true -> event_in_range v.
Proof.
  unfold exit_event, event_in_range, EVENT_ESC_PRESSED, EVENT_CARD_REMOVED, EVENT_NONE, EVENT_MAX.
  intros H. apply orb_true_iff in H. destruct H as [H|H]; apply Z.eqb_eq in H; lia.
Qed.

Lemma core1_loop_body_cons (s : msc_manager) (v : Z) (q : list Z) :
  exit_flag s = false -> rx_queue Core1 (mgr_fifo s) = v :: q ->
  core1_loop_body s
  = mk_msc_manager (exit_event v) (exit_callback_set s) (set_rx_queue Core1 q (mgr_fifo s)).
Proof.
  intros Hf Hq. unfold core1_loop_body, event_bus_available, multicore_fifo_rvalid.
  rewrite Hq. unfold event_bus_get, multicore_fifo_pop_timeout_us_0. rewrite Hq.
  destruct (exit_event v) eqn:He.
  - rewrite (event_get_test v (exit_event_in_range v He)).
    unfold exit_event in He. rewrite He. reflexivity.
  - destruct ((v >? EVENT_NONE) && (v <? EVENT_MAX)).
    + unfold exit_event in He. rewrite He, Hf. reflexivity.
    + rewrite Hf. reflexivity.
Qed.

Lemma core1_loop_body_nil (s : msc_manager) :
  rx_queue Core1 (mgr_fifo s) = [] -> core1_loop_body s = s.
Proof.
  intros Hq. unfold core1_loop_body, event_bus_available, multicore_fifo_rvalid.
  rewrite Hq. reflexivity.
Qed.

(** The loop consumes the queued events up to the first ESC or card removal. *)
Lemma core1_loop_exits (pre post : list Z) (e : Z) (s : msc_manager) (fuel : nat) :
  exit_flag s = false ->
  rx_queue Core1 (mgr_fifo s) = pre ++ e :: post ->
  exit_event e = true -> Forall (fun v => exit_event v = false) pre ->
  (List.length pre + 2 <= fuel)%nat ->
  core1_loop fuel core0_idle s
  = (mk_msc_manager true (exit_callback_set s) (set_rx_queue Core1 post (mgr_fifo s)),
     repeat TudTask (List.length pre + 1), true).
Proof.
  unfold core0_idle.
  revert s fuel. induction pre as [|v pre IH]; intros s fuel Hf Hq He Hpre Hfuel.
  - destruct fuel as [|[|fuel]]; simpl in Hfuel; try lia. simpl.
    rewrite Hf, (core1_loop_body_cons s e post Hf Hq), He. reflexivity.
  - inversion Hpre as [|? ? Hv Hpre']; subst.
    destruct fuel as [|fuel]; simpl in Hfuel; [lia|]. simpl.
    rewrite Hf, (core1_loop_body_cons s v (pre ++ e :: post) Hf Hq), Hv.
    rewrite (IH (mk_msc_manager false (exit_callback_set s)
                   (set_rx_queue Core1 (pre ++ e :: post) (mgr_fifo s)))
               fuel eq_refl (rx_queue_set _ _ _) He Hpre' ltac:(lia)).
    cbn [exit_callback_set mgr_fifo]. rewrite set_rx_queue_twice. reflexivity.
Qed.

(** X5: [MSCManager_core1_entry] on core 1, with an ESC press or a card
    removal queued behind other events: the loop takes one [tud_task()]
    pass per event up to and including that one, ignores (and consumes) the
    events before it, leaves the events after it queued, then stops the USB
    interface and only then calls the exit callback, if one is set. *)
Theorem msc_core1_exits_on_exit_event (pre post : list Z) (e : Z) (s : msc_manager)
    (fuel : nat) :
  rx_queue Core1 (mgr_fifo s) = pre ++ e :: post ->
  (e = EVENT_ESC_PRESSED \/ e = EVENT_CARD_REMOVED) ->
  Forall (fun v => v <> EVENT_ESC_PRESSED /\ v <> EVENT_CARD_REMOVED) pre ->
  (List.length pre + 2 <= fuel)%nat ->
  MSCManager_core1_entry fuel core0_idle s
  = (mk_msc_manager true (exit_callback_set s) (set_rx_queue Core1 post (mgr_fifo s)),
     UsbMscInit :: repeat TudTask (List.length pre + 1) ++
     UsbMscStop :: (if exit_callback_set s then [ExitCallback] else []),
     true).
Proof.
  intros Hq He Hpre Hfuel. unfold MSCManager_core1_entry.
  rewrite (core1_loop_exits pre post e (mk_msc_manager false (exit_callback_set s) (mgr_fifo s))
             fuel eq_refl Hq); try assumption.
  - reflexivity.
  - unfold exit_event. destruct He as [-> | ->]; reflexivity.
  - eapply Forall_impl; [|exact Hpre]. intros v [H1 H2]. unfold exit_event.
    apply Z.eqb_neq in H1, H2. rewrite H1, H2. reflexivity.
Qed.

Lemma msc_core1_exits_on_exit_event_witness :
  MSCManager_core1_entry 5 core0_idle (mk_msc_manager false true (mk_fifo 8 [] [1; 9; 4; 3]))
  = (mk_msc_manager true true (mk_fifo 8 [] [3]),
     [UsbMscInit; TudTask; TudTask; TudTask; UsbMscStop; ExitCallback], true).
Proof.
  apply (msc_core1_exits_on_exit_event [1; 9] [3] 4
           (mk_msc_manager false true (mk_fifo 8 [] [1; 9; 4; 3])) 5).
  - reflexivity.
  - right; reflexivity.
  - repeat constructor; discriminate.
  - simpl; lia.
Defined.

Lemma core0_step_keeps (a : core0_action) (s : msc_manager) :
  a <> Core0Stop -> (forall ev, a = Core0Post ev -> exit_event ev = false) ->
  Forall (fun v => exit_event v = false) (rx_queue Core1 (mgr_fifo s)) ->
  exit_flag (core0_step a s) = exit_flag s /\
  exit_callback_set (core0_step a s) = exit_callback_set s /\
  Forall (fun v => exit_event v = false) (rx_queue Core1 (mgr_fifo (core0_step a s))).
Proof.
  intros Hns Hpost Hq. destruct a as [| |ev]; [auto|congruence|].
  cbn [core0_step exit_flag exit_callback_set mgr_fifo]. split; [reflexivity|]. split; [reflexivity|].
  unfold event_bus_post.
  destruct (_ || _); [exact Hq|]. destruct (multicore_fifo_wready Core0 (mgr_fifo s)); [|exact Hq].
  cbn [snd]. unfold multicore_fifo_push_blocking. cbn [other_core]. rewrite rx_queue_set.
  apply Forall_app. split; [exact Hq|]. constructor; [apply (Hpost ev eq_refl)|constructor].
Qed.

Lemma core1_loop_body_keeps (s : msc_manager) :
  exit_flag s = false ->
  Forall (fun v => exit_event v = false) (rx_queue Core1 (mgr_fifo s)) ->
  exit_flag (core1_loop_body s) = false /\
  exit_callback_set (core1_loop_body s) = exit_callback_set s /\
  Forall (fun v => exit_event v = false) (rx_queue Core1 (mgr_fifo (core1_loop_body s))).
Proof.
  intros Hf Hq. destruct (rx_queue Core1 (mgr_fifo s)) as [|v q] eqn:Hr.
  - rewrite (core1_loop_body_nil s Hr), Hr. auto.
  - apply Forall_cons_iff in Hq as [Hv Hq].
    rewrite (core1_loop_body_cons s v q Hf Hr), Hv.
    cbn [exit_flag exit_callback_set mgr_fifo]. rewrite rx_queue_set. auto.
Qed.

(** The first [n] tests of the loop, with neither a stop nor an exit event. *)
Lemma core1_loop_quiet_prefix (n : nat) :
  forall (fuel : nat) (env : nat -> core0_action) (s : msc_manager),
  exit_flag s = false ->
  Forall (fun v => exit_event v = false) (rx_queue Core1 (mgr_fifo s)) ->
  (forall j ev, env j = Core0Post ev -> exit_event ev = false) ->
  (forall j, (j < n)%nat -> env j <> Core0Stop) ->
  (n <= fuel)%nat ->
  exists s', exit_flag s' = false /\ exit_callback_set s' = exit_callback_set s /\
    Forall (fun v => exit_event v = false) (rx_queue Core1 (mgr_fifo s')) /\
    core1_loop fuel env s
    = (let '(s2, es, d) := core1_loop (fuel - n) (fun j => env (n + j)%nat) s' in
       (s2, repeat TudTask n ++ es, d)).
Proof.
  induction n as [|n IH]; intros fuel env s Hf Hq Hpost Hstop Hn.
  - exists s. split; [exact Hf|]. split; [reflexivity|]. split; [exact Hq|].
    rewrite Nat.sub_0_r. cbn [Nat.add repeat app].
    destruct (core1_loop fuel (fun j => env j) s) as [[s2 es] d] eqn:E.
    reflexivity.
  - destruct fuel as [|fuel]; [lia|].
    destruct (core0_step_keeps (env O) s (Hstop O ltac:(lia))
                (fun ev H => Hpost O ev H) Hq) as (Hf1 & Hc1 & Hq1).
    rewrite Hf in Hf1.
    destruct (core1_loop_body_keeps _ Hf1 Hq1) as (Hf2 & Hc2 & Hq2).
    destruct (IH fuel (fun i => env (S i)) (core1_loop_body (core0_step (env O) s))
                Hf2 Hq2 (fun j ev H => Hpost (S j) ev H)
                (fun j Hj => Hstop (S j) ltac:(lia)) ltac:(lia))
      as (s' & Hf' & Hc' & Hq' & Hl).
    exists s'. split; [exact Hf'|]. split; [congruence|]. split; [exact Hq'|].
    cbn [core1_loop]. rewrite Hf1, Hl.
    replace (S fuel - S n)%nat with (fuel - n)%nat by lia.
    cbn [Nat.add].
    destruct (core1_loop (fuel - n) (fun j => env (S (n + j))) s') as [[s2 es] d].
    reflexivity.
Qed.

(** X6: core 1 leaves the mass-storage loop only through a stop or an exit
    event. With no ESC press or card removal queued for it or posted by
    core 0, it makes one [tud_task()] pass per test of the loop condition,
    leaves at the first test after core 0 calls [MSCManager_stop()], then
    stops the USB interface and calls the exit callback, if one is set;
    while core 0 does not call it, core 1 never leaves. A stop issued before
    the entry is lost, since the entry clears [exit_flag] first. *)
Theorem msc_core1_leaves_only_on_stop_or_exit_event (s : msc_manager)
    (env : nat -> core0_action) (fuel i : nat) :
  Forall (fun v => exit_event v = false) (rx_queue Core1 (mgr_fifo s)) ->
  (forall j ev, env j = Core0Post ev -> exit_event ev = false) ->
  (forall j, (j < i)%nat -> env j <> Core0Stop) ->
  MSCManager_core1_entry fuel env (MSCManager_stop s) = MSCManager_core1_entry fuel env s /\
  ((fuel <= i)%nat ->
   exists s', MSCManager_core1_entry fuel env s = (s', UsbMscInit :: repeat TudTask fuel, false)) /\
  ((i < fuel)%nat -> env i = Core0Stop ->
   exists s', MSCManager_core1_entry fuel env s
              = (s', UsbMscInit :: repeat TudTask i ++
                     UsbMscStop :: (if exit_callback_set s then [ExitCallback] else []), true)).
Proof.
  intros Hq Hpost Hstop. split; [reflexivity|]. split.
  - intros Hfi.
    destruct (core1_loop_quiet_prefix fuel fuel env
                (mk_msc_manager false (exit_callback_set s) (mgr_fifo s)) eq_refl Hq Hpost
                (fun j Hj => Hstop j ltac:(lia)) (le_n _)) as (s' & _ & _ & _ & Hl).
    unfold MSCManager_core1_entry. rewrite Hl, Nat.sub_diag. cbn [core1_loop].
    rewrite app_nil_r. eexists; reflexivity.
  - intros Hif Hi.
    destruct (core1_loop_quiet_prefix i fuel env
                (mk_msc_manager false (exit_callback_set s) (mgr_fifo s)) eq_refl Hq Hpost
                Hstop ltac:(lia)) as (s' & Hf' & Hc' & _ & Hl).
    unfold MSCManager_core1_entry. rewrite Hl.
    destruct (fuel - i)%nat as [|k] eqn:Hk; [lia|].
    cbn [core1_loop]. rewrite Nat.add_0_r, Hi. cbn [core0_step MSCManager_stop exit_flag].
    unfold MSCManager_stop. cbn [exit_callback_set] in *. rewrite Hc', app_nil_r.
    eexists; reflexivity.
Qed.

Lemma msc_core1_leaves_only_on_stop_or_exit_event_witness :
  exists s', MSCManager_core1_entry 6 sample_core0_env (mk_msc_manager false true (mk_fifo 8 [] [1]))
             = (s', [UsbMscInit; TudTask; TudTask; UsbMscStop; ExitCallback], true).
Proof.
  refine (proj2 (proj2 (msc_core1_leaves_only_on_stop_or_exit_event
            (mk_msc_manager false true (mk_fifo 8 [] [1])) sample_core0_env 6 2
            ltac:(repeat constructor) _ _)) ltac:(lia) eq_refl).
  - intros [|[|[|j]]] ev H; cbn in H; try discriminate. injection H as <-. reflexivity.
  - intros [|[|j]] Hj; cbn; [discriminate|discriminate|lia].
Defined.

(** X7: an ESC key read by [InputManager_poll] on core 0 reaches core 1:
    with room in the FIFO and nothing queued for core 1, the poll returns
    the key, and core 1's mass-storage loop then makes a single pass and
    leaves it, stopping the USB interface; any other key posts nothing. *)
Theorem input_esc_stops_msc_loop (KEY_ESC key : Z) (f : sio_fifo) (cb : bool) (fuel : nat) :
  rx_queue Core1 f = [] -> (0 < fifo_depth f)%nat -> (2 <= fuel)%nat ->
  (key = KEY_ESC ->
   fst (InputManager_poll KEY_ESC Core0 key f) = key /\
   MSCManager_core1_entry fuel core0_idle
     (mk_msc_manager false cb (snd (InputManager_poll KEY_ESC Core0 key f)))
   = (mk_msc_manager true cb f,
      [UsbMscInit; TudTask; UsbMscStop] ++ (if cb then [ExitCallback] else []), true)) /\
  (key <> KEY_ESC -> InputManager_poll KEY_ESC Core0 key f = (key, f)).
Proof.
  intros Hq Hd Hfuel. split.
  - intros ->. unfold InputManager_poll. rewrite Z.eqb_refl. cbn [fst snd].
    split; [reflexivity|].
    unfold event_bus_post.
    rewrite (event_range_test EVENT_ESC_PRESSED)
      by (unfold event_in_range, EVENT_NONE, EVENT_ESC_PRESSED, EVENT_MAX; lia).
    assert (Hw : multicore_fifo_wready Core0 f = true).
    { unfold multicore_fifo_wready. cbn [other_core]. rewrite Hq. apply Nat.ltb_lt. exact Hd. }
    rewrite Hw. cbn [snd]. unfold multicore_fifo_push_blocking. cbn [other_core].
    rewrite Hq. cbn [app]. unfold MSCManager_core1_entry. cbn [exit_callback_set mgr_fifo].
    rewrite (core1_loop_exits [] [] EVENT_ESC_PRESSED
               (mk_msc_manager false cb (set_rx_queue Core1 [EVENT_ESC_PRESSED] f))
               fuel eq_refl (rx_queue_set _ _ _)
               eq_refl (Forall_nil _) ltac:(simpl; lia)).
    cbn [exit_callback_set mgr_fifo].
    assert (Hf : set_rx_queue Core1 [] f = f) by (rewrite <- Hq; apply set_rx_queue_same).
    rewrite set_rx_queue_twice, Hf. reflexivity.
  - intros Hne. unfold InputManager_poll. apply Z.eqb_neq in Hne. rewrite Hne. reflexivity.
Qed.

Lemma input_esc_stops_msc_loop_witness :
  MSCManager_core1_entry 3 core0_idle
    (mk_msc_manager false true (snd (InputManager_poll 0xB1 Core0 0xB1 (mk_fifo 8 [] []))))
  = (mk_msc_manager true true (mk_fifo 8 [] []),
     [UsbMscInit; TudTask; UsbMscStop; ExitCallback], true).
Proof.
  exact (proj2 (proj1 (input_esc_stops_msc_loop 0xB1 0xB1 (mk_fifo 8 [] []) true 3
                         eq_refl ltac:(simpl; lia) ltac:(lia)) eq_refl)).
Defined.

(* ------------------------------------------------------------------ *)
(** ** Filesystem manager: card detection *)

Lemma fs_detect_inv_card_event (s : fs_state) (b : bool) :
  fs_detect_inv s -> fs_detect_inv (card_event b s).
Proof. destruct b; fs_cases s; cbv; intuition congruence. Qed.

Lemma fs_detect_inv_card_events (s : fs_state) (bs : list bool) :
  fs_detect_inv s -> fs_detect_inv (fold_left (fun s b => card_event b s) bs s).
Proof.
  revert s. induction bs as [|b bs IH]; intros s H; [exact H|].
  apply IH, fs_detect_inv_card_event, H.
Qed.

(** X8: once [FSManager_init] has run (from the boot state, not mounted),
    the detect interrupt keeps [cardInsertedState] equal to the card's
    presence, and the manager is mounted only with the card in and both
    handles allocated, across any sequence of insertions and removals and
    any mount or unmount; in such a state a mount with the card absent
    fails and changes nothing. *)
Theorem fsmanager_detect_invariant :
  (forall s, mounted s = false -> fs_detect_inv (snd (FSManager_init s))) /\
  (forall s bs, fs_detect_inv s -> fs_detect_inv (fold_left (fun s b => card_event b s) bs s)) /\
  (forall s, fs_detect_inv s -> fs_detect_inv (snd (FSManager_mount s))) /\
  (forall s, fs_detect_inv s -> fs_detect_inv (FSManager_unmount s)) /\
  (forall s, fs_detect_inv s -> card_present (media s) = false ->
             FSManager_mount s = (false, s)).
Proof.
  split; [intros s; fs_cases s; cbv; intuition congruence|].
  split; [intros s bs; apply fs_detect_inv_card_events|].
  split; [intros s; fs_cases s; cbv; intuition congruence|].
  split; [intros s; fs_cases s; cbv; intuition congruence|].
  intros s; fs_cases s; cbv; intuition congruence.
Qed.

Lemma fsmanager_detect_invariant_witness :
  mounted fs_boot = false /\
  fs_detect_inv (fold_left (fun s b => card_event b s) [false; true]
                   (snd (FSManager_init fs_boot))).
Proof.
  split; [reflexivity|].
  exact (proj1 (proj2 fsmanager_detect_invariant) _ [false; true]
           (proj1 fsmanager_detect_invariant fs_boot eq_refl)).
Defined.

(** X9: a mount that fails with the card in (formatting failed, or the
    mount after it) leaves the manager unmounted with the [sd] and [fat]
    handles of fs_init still allocated, and neither [FSManager_unmount] nor
    [FSManager_deinit] releases them, since both free only when mounted. *)
Theorem fsmanager_failed_mount_keeps_handles (s : fs_state) :
  mounted s = false -> card_present (media s) = true ->
  fst (FSManager_mount s) = false ->
  mounted (snd (FSManager_mount s)) = false /\
  sd_handle (snd (FSManager_mount s)) = true /\
  fat_handle (snd (FSManager_mount s)) = true /\
  FSManager_unmount (snd (FSManager_mount s)) = snd (FSManager_mount s) /\
  sd_handle (FSManager_deinit (snd (FSManager_mount s))) = true /\
  fat_handle (FSManager_deinit (snd (FSManager_mount s))) = true.
Proof.
  fs_cases s; cbv; intuition congruence.
Qed.

Lemma fsmanager_failed_mount_keeps_handles_witness :
  sd_handle (FSManager_deinit (snd (FSManager_mount
    (mk_fs false false false true true (mk_medium true false true false))))) = true.
Proof.
  exact (proj1 (proj2 (proj2 (proj2 (proj2 (fsmanager_failed_mount_keeps_handles
           (mk_fs false false false true true (mk_medium true false true false))
           eq_refl eq_refl eq_refl)))))).
Defined.

Lemma card_events_irq_off (s : fs_state) (bs : list bool) :
  detect_irq_enabled s = false ->
  let s' := fold_left (fun s b => card_event b s) bs s in
  mounted s' = mounted s /\ detect_irq_enabled s' = false /\ sd_handle s' = sd_handle s /\
  fat_handle s' = fat_handle s /\ cardInsertedState s' = cardInsertedState s.
Proof.
  revert s. induction bs as [|b bs IH]; intros s Hirq; simpl; [auto|].
  destruct (IH (card_event b s)) as (H1 & H2 & H3 & H4 & H5).
  - unfold card_event. cbn [detect_irq_enabled set_media]. rewrite Hirq. exact Hirq.
  - unfold card_event in *. cbn [detect_irq_enabled set_media] in *. rewrite Hirq in *.
    cbn in H1, H3, H4, H5. auto.
Qed.

(** X10: after [FSManager_deinit] the manager is unmounted with the detect
    interrupt off (a mounted manager has released both handles), and it
    stays so whatever the card does afterwards: insertions no longer mount,
    removals no longer touch anything. *)
Theorem fsmanager_deinit_detaches (s : fs_state) (bs : list bool) :
  let s0 := FSManager_deinit s in
  let s' := fold_left (fun s b => card_event b s) bs s0 in
  mounted s' = false /\ detect_irq_enabled s' = false /\
  sd_handle s' = sd_handle s0 /\ fat_handle s' = fat_handle s0 /\
  (mounted s = true -> sd_handle s' = false /\ fat_handle s' = false).
Proof.
  cbv zeta.
  assert (Hirq : detect_irq_enabled (FSManager_deinit s) = false) by reflexivity.
  destruct (card_events_irq_off (FSManager_deinit s) bs Hirq) as (H1 & H2 & H3 & H4 & _).
  rewrite H1, H2, H3, H4.
  unfold FSManager_deinit, FSManager_unmount.
  destruct (mounted s) eqn:Hm; cbn; repeat split; intros; congruence.
Qed.

Lemma fsmanager_deinit_detaches_witness :
  sd_handle (fold_left (fun s b => card_event b s) [false; true]
               (FSManager_deinit (mk_fs true true true true true (mk_medium true true true true))))
  = false.
Proof.
  exact (proj1 (proj2 (proj2 (proj2 (proj2 (fsmanager_deinit_detaches
           (mk_fs true true true true true (mk_medium true true true true)) [false; true]))))
           eq_refl)).
Defined.

(* ------------------------------------------------------------------ *)
(** ** Mass-storage transfers, capacity and descriptors *)

Lemma sector_offset (k t : Z) :
  0 <= t < 512 -> (512 * k + t) / 512 = k /\ (512 * k + t) mod 512 = t.
Proof.
  intros Ht. replace (512 * k + t) with (t + k * 512) by ring. split.
  - rewrite Z.div_add by lia. rewrite Z.div_small by lia. ring.
  - rewrite Z_mod_plus_full. apply Z.mod_small. lia.
Qed.

Lemma msc_set_write_twice (a b : list Z) (l l' : Z) (s : msc_state) :
  msc_set_write a l (msc_set_write b l' s) = msc_set_write a l s.
Proof. destruct s; reflexivity. Qed.

(** The calls TinyUSB makes for one piece [p] of a sector of which the bytes
    [P] came before: with [d] bytes of the piece left, each call is handed
    the rest of the piece at its offset, copies it over the same bytes,
    programs the whole buffer when the rest reaches the end of the sector,
    and returns 1. *)
Lemma write10_piece_calls (bd : blockdevice) (lun lba0 k : Z) (P p W : list Z) (f : nat) :
  0 <= k -> (List.length P + List.length p <= 512)%nat ->
  let B := (P ++ p) ++ skipn (List.length P + List.length p) W in
  ((List.length P + List.length p =? 512)%nat = true -> bd_program_ok bd (lba0 + k) B = true) ->
  forall d s, (1 <= d <= List.length p)%nat ->
  msc_card_inserted s = true -> msc_block_size s = 512 ->
  firstn (List.length P + (List.length p - d)) (msc_write_buffer s)
    = P ++ firstn (List.length p - d) p ->
  skipn (List.length P + List.length p) (msc_write_buffer s)
    = skipn (List.length P + List.length p) W ->
  ((List.length P + (List.length p - d) = 0)%nat \/ msc_last_write_lba s = lba0 + k) ->
  write10_piece (d + f) bd lun lba0 512
    (512 * k + Z.of_nat (List.length P + (List.length p - d)))
    (skipn (List.length p - d) p) s
  = (Some (512 * k + Z.of_nat (List.length P + List.length p)), repeat 1 d,
     msc_set_write B (lba0 + k) s,
     if (List.length P + List.length p =? 512)%nat
     then repeat (DevProgram (lba0 + k) B) d else []).
Proof.
  intros Hk HPp B Hok d. induction d as [|d IH]; intros s Hd Hin Hbs Hpre Hsuf Hlba; [lia|].
  set (t := List.length P) in *. set (L := List.length p) in *.
  set (j := (L - S d)%nat) in *.
  destruct (sector_offset k (Z.of_nat (t + j)) ltac:(lia)) as [Hdiv Hmod].
  cbn [Nat.add write10_piece]. rewrite Hdiv, Hmod.
  assert (Hlen : List.length (skipn j p) = (L - j)%nat) by apply length_skipn.
  assert (Hbuf : copy_in (msc_write_buffer s) (Z.of_nat (t + j)) (skipn j p) = B).
  { unfold copy_in. rewrite Nat2Z.id, Hpre, Hlen.
    replace (t + j + (L - j))%nat with (t + L)%nat by lia. rewrite Hsuf.
    subst B. rewrite <- !app_assoc. f_equal. rewrite app_assoc, firstn_skipn. reflexivity. }
  assert (Hlast : (if Z.of_nat (t + j) =? 0 then lba0 + k else msc_last_write_lba s) = lba0 + k).
  { destruct (Z.eqb_spec (Z.of_nat (t + j)) 0); [reflexivity|].
    destruct Hlba as [H|H]; [lia | exact H]. }
  unfold tud_msc_write10_cb. rewrite Hin, Hbs, Hbuf, Hlast, Hlen. cbn [negb].
  assert (Hend : (Z.of_nat (t + j) + Z.of_nat (L - j) >=? 512) = (t + L =? 512)%nat).
  { destruct (Nat.eqb_spec (t + L) 512); [apply Z.geb_le; lia|].
    rewrite Z.geb_leb. apply Z.leb_gt. lia. }
  rewrite Hend.
  set (r := if (t + L =? 512)%nat
            then if bd_program_ok bd (lba0 + k) B
                 then mk_msc_result 1 None (msc_set_write B (lba0 + k) s) [DevProgram (lba0 + k) B]
                 else mk_msc_result 0 None (msc_set_write B (lba0 + k) s) [DevProgram (lba0 + k) B]
            else mk_msc_result 1 None (msc_set_write B (lba0 + k) s) []).
  assert (Hr : r = mk_msc_result 1 None (msc_set_write B (lba0 + k) s)
                     (if (t + L =? 512)%nat then [DevProgram (lba0 + k) B] else [])).
  { subst r. destruct (t + L =? 512)%nat eqn:He; [rewrite (Hok eq_refl)|]; reflexivity. }
  rewrite Hr. cbn [msc_ret msc_after msc_dev_ops].
  replace (1 <? 0) with false by reflexivity.
  destruct d as [|d].
  - (* the last byte of the piece *)
    replace (1 <? Z.of_nat (L - j)) with false by (symmetry; apply Z.ltb_ge; lia).
    replace (512 * k + Z.of_nat (t + j) + Z.of_nat (L - j))
      with (512 * k + Z.of_nat (t + L)) by lia.
    destruct (t + L =? 512)%nat; reflexivity.
  - replace (1 <? Z.of_nat (L - j)) with true by (symmetry; apply Z.ltb_lt; lia).
    replace (skipn (Z.to_nat 1) (skipn j p)) with (skipn (L - S d) p)
      by (rewrite skipn_skipn; f_equal; cbn; lia).
    replace (512 * k + Z.of_nat (t + j) + 1) with (512 * k + Z.of_nat (t + (L - S d))) by lia.
    assert (HB1 : firstn (t + (L - S d)) B = P ++ firstn (L - S d) p).
    { subst B. rewrite <- app_assoc, firstn_app. fold t.
      replace (t + (L - S d) - t)%nat with (L - S d)%nat by lia.
      rewrite firstn_all2 by lia. f_equal. rewrite firstn_app.
      replace (L - S d - List.length p)%nat with O by (unfold L in *; lia).
      rewrite firstn_O, app_nil_r. reflexivity. }
    assert (HB2 : skipn (t + L) B = skipn (t + L) W).
    { subst B. rewrite skipn_app, length_app. fold t L.
      rewrite skipn_all2 by (rewrite length_app; lia). rewrite Nat.sub_diag. reflexivity. }
    rewrite (IH (msc_set_write B (lba0 + k) s) ltac:(lia) Hin Hbs HB1 HB2 (or_intror eq_refl)).
    rewrite msc_set_write_twice.
    destruct (t + L =? 512)%nat; reflexivity.
Qed.

(** A whole piece. *)
Lemma write10_piece_whole (bd : blockdevice) (lun lba0 k : Z) (P p W : list Z) (f : nat)
    (s : msc_state) :
  0 <= k -> p <> [] -> (List.length P + List.length p <= 512)%nat ->
  let B := (P ++ p) ++ skipn (List.length P + List.length p) W in
  ((List.length P + List.length p =? 512)%nat = true -> bd_program_ok bd (lba0 + k) B = true) ->
  (List.length p <= f)%nat ->
  msc_card_inserted s = true -> msc_block_size s = 512 ->
  msc_write_buffer s = P ++ skipn (List.length P) W ->
  (P = [] \/ msc_last_write_lba s = lba0 + k) ->
  write10_piece f bd lun lba0 512 (512 * k + Z.of_nat (List.length P)) p s
  = (Some (512 * k + Z.of_nat (List.length P + List.length p)), repeat 1 (List.length p),
     msc_set_write B (lba0 + k) s,
     if (List.length P + List.length p =? 512)%nat
     then repeat (DevProgram (lba0 + k) B) (List.length p) else []).
Proof.
  intros Hk Hp HPp B Hok Hf Hin Hbs Hwb Hlba.
  assert (Hpos : (1 <= List.length p)%nat) by (destruct p; [congruence | simpl; lia]).
  pose proof (write10_piece_calls bd lun lba0 k P p W (f - List.length p) Hk HPp Hok
                (List.length p) s ltac:(lia) Hin Hbs) as H.
  rewrite Nat.sub_diag, Nat.add_0_r, firstn_O, app_nil_r, skipn_0 in H.
  replace (List.length p + (f - List.length p))%nat with f in H by lia.
  apply H.
  - rewrite Hwb, firstn_app, Nat.sub_diag, firstn_O, app_nil_r. apply firstn_all.
  - rewrite Hwb, skipn_app, skipn_all2 by lia. cbn [app].
    rewrite skipn_skipn. f_equal. lia.
  - destruct Hlba as [->|H']; [left; reflexivity | right; exact H'].
Qed.

(** The rest of a sector, in pieces, of which the bytes [P] came before. *)
Lemma write10_sector_pieces (bd : blockdevice) (lun lba0 k : Z) (W : list Z) (f : nat) :
  0 <= k -> List.length W = 512%nat -> (512 <= f)%nat ->
  forall (ps : list (list Z)) (P : list Z) (s : msc_state),
  msc_card_inserted s = true -> msc_block_size s = 512 ->
  msc_write_buffer s = P ++ skipn (List.length P) W ->
  (P = [] \/ msc_last_write_lba s = lba0 + k) ->
  Forall (fun p => p <> []) ps -> ps <> [] ->
  (List.length P + List.length (List.concat ps) = 512)%nat ->
  bd_program_ok bd (lba0 + k) (P ++ List.concat ps) = true ->
  tinyusb_write10 f bd lun lba0 512 (512 * k + Z.of_nat (List.length P)) ps s
  = (true, repeat 1 (List.length (List.concat ps)),
     msc_set_write (P ++ List.concat ps) (lba0 + k) s,
     repeat (DevProgram (lba0 + k) (P ++ List.concat ps)) (List.length (last ps []))).
Proof.
  intros Hk HW Hf ps. induction ps as [|p ps IH]; intros P s Hin Hbs Hwb Hlba Hne Hnn Hlen Hok;
    [congruence|].
  apply Forall_cons_iff in Hne as [Hp Hne'].
  cbn [List.concat] in Hlen, Hok |- *. rewrite length_app in Hlen |- *.
  cbn [tinyusb_write10].
  destruct ps as [|p' ps'].
  - cbn [List.concat] in *. rewrite app_nil_r in *. rewrite Nat.add_0_r in Hlen.
    assert (HB : (P ++ p) ++ skipn (List.length P + List.length p) W = P ++ p)
      by (rewrite skipn_all2 by lia; rewrite app_nil_r; reflexivity).
    rewrite (write10_piece_whole bd lun lba0 k P p W f s Hk Hp ltac:(lia))
      by (try rewrite HB; try rewrite Hlen; auto; lia).
    rewrite HB, Hlen. cbn. rewrite !app_nil_r, ?Nat.add_0_r. reflexivity.
  - assert (Hpos : (0 < List.length (List.concat (p' :: ps')))%nat).
    { inversion Hne' as [|? ? Hp' _]; subst. cbn [List.concat]. rewrite length_app.
      destruct p'; [congruence | simpl; lia]. }
    assert (Hlt : (List.length P + List.length p =? 512)%nat = false)
      by (apply Nat.eqb_neq; lia).
    rewrite (write10_piece_whole bd lun lba0 k P p W f s Hk Hp ltac:(lia))
      by (try rewrite Hlt; auto; try discriminate; lia).
    rewrite Hlt.
    set (B := (P ++ p) ++ skipn (List.length P + List.length p) W).
    replace (512 * k + Z.of_nat (List.length P + List.length p))
      with (512 * k + Z.of_nat (List.length (P ++ p))) by (rewrite length_app; reflexivity).
    rewrite (IH (P ++ p) (msc_set_write B (lba0 + k) s) Hin Hbs)
      by (try (subst B; rewrite length_app; reflexivity); auto; try discriminate;
          try (rewrite length_app; lia); rewrite <- app_assoc; exact Hok).
    rewrite msc_set_write_twice, <- !app_assoc, repeat_app. reflexivity.
Qed.

(** X11: a sector the host writes in pieces (WRITE10, TinyUSB handing each
    piece to [tud_msc_write10_cb] at the sector's lba and the offset within
    it) is assembled in the write buffer and ends up programmed at that lba
    with the bytes in order. The callback returns 1, which TinyUSB takes
    for the number of bytes consumed, so it is called once per byte with
    the rest of its piece; every call handed the last piece reaches the end
    of the sector and programs the whole buffer: the sector is programmed
    as many times as the last piece has bytes, 512 times when it arrives in
    one piece. *)
Theorem msc_write10_sector_programmed_per_byte (bd : blockdevice) (lun lba0 k : Z)
    (pieces : list (list Z)) (s : msc_state) (fuel : nat) :
  msc_card_inserted s = true -> msc_block_size s = 512 ->
  List.length (msc_write_buffer s) = 512%nat -> 0 <= k ->
  Forall (fun p => p <> []) pieces -> List.length (List.concat pieces) = 512%nat ->
  bd_program_ok bd (lba0 + k) (List.concat pieces) = true -> (512 <= fuel)%nat ->
  tinyusb_write10 fuel bd lun lba0 512 (512 * k) pieces s
  = (true, repeat 1 512, msc_set_write (List.concat pieces) (lba0 + k) s,
     repeat (DevProgram (lba0 + k) (List.concat pieces)) (List.length (last pieces []))).
Proof.
  intros Hin Hbs Hwb Hk Hne Hlen Hok Hf.
  pose proof (write10_sector_pieces bd lun lba0 k (msc_write_buffer s) fuel Hk Hwb Hf
                pieces [] s Hin Hbs eq_refl (or_introl eq_refl) Hne) as H.
  rewrite Z.add_0_r in H. rewrite H.
  - rewrite Hlen. reflexivity.
  - intros ->. simpl in Hlen. lia.
  - exact Hlen.
  - exact Hok.
Qed.

Lemma msc_write10_sector_programmed_per_byte_witness :
  List.length (snd (tinyusb_write10 512 sample_blockdevice 0 100 512 (512 * 2)
                      [repeat 1 64; repeat 2 448] (sample_msc_state true))) = 448%nat.
Proof.
  rewrite (msc_write10_sector_programmed_per_byte sample_blockdevice 0 100 2
             [repeat 1 64; repeat 2 448] (sample_msc_state true) 512
             eq_refl eq_refl eq_refl ltac:(lia)
             ltac:(repeat constructor; discriminate) eq_refl eq_refl ltac:(lia)).
  reflexivity.
Defined.

Lemma tinyusb_read10_S (fuel : nat) (bd : blockdevice) (lun lba0 block epbuf total xferred : Z)
    (s : msc_state) :
  tinyusb_read10 (S fuel) bd lun lba0 block epbuf total xferred s
  = if total <=? xferred then ([], [], s, [])
    else
      let n := Z.min epbuf (total - xferred) in
      let r := tud_msc_read10_cb bd lun (lba0 + xferred / block) (xferred mod block) n s in
      if msc_ret r <? 0 then ([], [msc_ret r], msc_after r, msc_dev_ops r)
      else
        let sent := firstn (Z.to_nat (msc_ret r)) (host_bytes (msc_host_data r)) in
        let '(hs, rets, s', ops) :=
          tinyusb_read10 fuel bd lun lba0 block epbuf total (xferred + msc_ret r) (msc_after r) in
        (sent ++ hs, msc_ret r :: rets, s', msc_dev_ops r ++ ops).
Proof. reflexivity. Qed.

(** The bytes from offset [512 - d] to the end of a sector that is in the
    read buffer: one call per byte, no device read, the state unchanged. *)
Lemma read10_rest (bd : blockdevice) (lun lba0 epbuf total k : Z) (blk : list Z) (f : nat) :
  List.length blk = 512%nat -> 0 < epbuf -> 0 <= k -> 512 * k + 512 <= total ->
  forall (d : nat) (s : msc_state), (d < 512)%nat ->
  msc_card_inserted s = true -> msc_read_buffer s = blk ->
  tinyusb_read10 (d + f) bd lun lba0 512 epbuf total (512 * k + (512 - Z.of_nat d)) s
  = read_prefix (skipn (512 - d) blk) (repeat 1 d) []
      (tinyusb_read10 f bd lun lba0 512 epbuf total (512 * k + 512) s).
Proof.
  intros Hblk Hep Hk Htot d. induction d as [|d IH]; intros s Hd Hin Hrb.
  - rewrite Z.sub_0_r. cbn [Nat.add]. unfold read_prefix.
    destruct (tinyusb_read10 _ _ _ _ _ _ _ _ _) as [[[hs rets] s'] ops].
    rewrite skipn_all2 by lia. reflexivity.
  - set (t := 512 - Z.of_nat (S d)).
    destruct (sector_offset k t ltac:(lia)) as [Hdiv Hmod].
    cbn [Nat.add tinyusb_read10]. rewrite Hdiv, Hmod.
    replace (total <=? 512 * k + t) with false by (symmetry; apply Z.leb_gt; lia).
    set (n := Z.min epbuf (total - (512 * k + t))).
    assert (Hn : 1 <= n) by (subst n; lia).
    assert (Hcall : tud_msc_read10_cb bd lun (lba0 + k) t n s
                    = mk_msc_result 1 (Some (copy_out blk t n)) s []).
    { unfold tud_msc_read10_cb. rewrite Hin, Hrb.
      replace (t =? 0) with false by (symmetry; apply Z.eqb_neq; lia). reflexivity. }
    rewrite Hcall. cbn [msc_ret msc_after msc_dev_ops msc_host_data host_bytes].
    replace (1 <? 0) with false by reflexivity.
    replace (512 * k + t + 1) with (512 * k + (512 - Z.of_nat d)) by lia.
    rewrite (IH s ltac:(lia) Hin Hrb). unfold read_prefix.
    destruct (tinyusb_read10 _ _ _ _ _ _ _ _ _) as [[[hs rets] s'] ops].
    cbn [app]. f_equal. f_equal. f_equal.
    rewrite app_assoc. f_equal. unfold copy_out.
    replace (Z.to_nat t) with (512 - S d)%nat by lia.
    replace (512 - d)%nat with (1 + (512 - S d))%nat by lia.
    rewrite <- skipn_skipn. change (Z.to_nat 1) with 1%nat.
    rewrite firstn_firstn. replace (Init.Nat.min 1 (Z.to_nat n)) with 1%nat by lia.
    apply firstn_skipn.
Qed.

(** A whole sector: one device read on its first byte, then one call per
    byte. *)
Lemma read10_sector (bd : blockdevice) (lun lba0 epbuf total k : Z) (blk : list Z) (f : nat)
    (s : msc_state) :
  List.length blk = 512%nat -> 0 < epbuf -> 0 <= k -> 512 * k + 512 <= total ->
  msc_card_inserted s = true -> bd_read bd (lba0 + k) = Some blk ->
  tinyusb_read10 (512 + f) bd lun lba0 512 epbuf total (512 * k) s
  = read_prefix blk (repeat 1 512) [DevRead (lba0 + k)]
      (tinyusb_read10 f bd lun lba0 512 epbuf total (512 * k + 512)
         (msc_set_read blk (lba0 + k) s)).
Proof.
  intros Hblk Hep Hk Htot Hin Hrd.
  destruct (sector_offset k 0 ltac:(lia)) as [Hdiv Hmod]. rewrite Z.add_0_r in Hdiv, Hmod.
  change (512 + f)%nat with (S (511 + f)). rewrite tinyusb_read10_S. cbv zeta. rewrite Hdiv, Hmod.
  replace (total <=? 512 * k) with false by (symmetry; apply Z.leb_gt; lia).
  set (n := Z.min epbuf (total - 512 * k)).
  assert (Hn : 1 <= n) by (subst n; lia).
  assert (Hcall : tud_msc_read10_cb bd lun (lba0 + k) 0 n s
                  = mk_msc_result 1 (Some (copy_out blk 0 n)) (msc_set_read blk (lba0 + k) s)
                      [DevRead (lba0 + k)])
    by (unfold tud_msc_read10_cb; rewrite Hin, Hrd; reflexivity).
  rewrite Hcall. cbn [msc_ret msc_after msc_dev_ops msc_host_data host_bytes].
  replace (1 <? 0) with false by reflexivity.
  replace (512 * k + 1) with (512 * k + (512 - Z.of_nat 511)) by lia.
  rewrite (read10_rest bd lun lba0 epbuf total k blk f Hblk Hep Hk Htot 511
             (msc_set_read blk (lba0 + k) s) ltac:(lia) Hin eq_refl).
  unfold read_prefix.
  destruct (tinyusb_read10 _ _ _ _ _ _ _ _ _) as [[[hs rets] s'] ops].
  cbn [app]. f_equal. f_equal. f_equal.
  rewrite app_assoc. f_equal. unfold copy_out. rewrite skipn_0, firstn_firstn.
  replace (Init.Nat.min (Z.to_nat 1) (Z.to_nat n)) with 1%nat by (clear -Hn; lia).
  change (512 - 511)%nat with 1%nat. apply firstn_skipn.
Qed.

Lemma read10_sectors (bd : blockdevice) (lun lba0 epbuf : Z) (cnt : nat) (blks : Z -> list Z) :
  0 < epbuf ->
  (forall j, 0 <= j < Z.of_nat cnt ->
     bd_read bd (lba0 + j) = Some (blks j) /\ List.length (blks j) = 512%nat) ->
  forall (d i : nat) (s : msc_state), (i + d = cnt)%nat ->
  msc_card_inserted s = true ->
  exists s',
  tinyusb_read10 (512 * d) bd lun lba0 512 epbuf (512 * Z.of_nat cnt) (512 * Z.of_nat i) s
  = (List.concat (map (fun j => blks (Z.of_nat j)) (seq i d)), repeat 1 (512 * d), s',
     map (fun j => DevRead (lba0 + Z.of_nat j)) (seq i d)).
Proof.
  intros Hep Hrd d. induction d as [|d IH]; intros i s Hid Hin.
  - exists s. reflexivity.
  - destruct (Hrd (Z.of_nat i) ltac:(lia)) as [Hr Hl].
    replace (512 * S d)%nat with (512 + 512 * d)%nat by lia.
    rewrite (read10_sector bd lun lba0 epbuf (512 * Z.of_nat cnt) (Z.of_nat i) (blks (Z.of_nat i)) _ s Hl Hep
               ltac:(lia) ltac:(lia) Hin Hr).
    replace (512 * Z.of_nat i + 512) with (512 * Z.of_nat (S i)) by lia.
    destruct (IH (S i) (msc_set_read (blks (Z.of_nat i)) (lba0 + Z.of_nat i) s)
                ltac:(lia) Hin) as [s' Hs'].
    rewrite Hs'. exists s'. unfold read_prefix. cbn [seq map List.concat].
    replace (512 + 512 * d)%nat with (512 * S d)%nat by lia.
    rewrite <- repeat_app. f_equal. f_equal. replace (512 * S d)%nat with (512 + 512 * d)%nat by lia.
    reflexivity.
Qed.

(** X12: a READ10 command of [cnt] sectors from [lba0] (TinyUSB calling
    [tud_msc_read10_cb] at each sector's lba and the offset within it)
    reads each sector from the device once, on its first byte, and the
    bytes sent to the host are exactly the sectors, in order. The callback
    returns 1, which TinyUSB takes for the number of bytes copied, so it is
    called once per byte and each call sends one byte. *)
Theorem msc_read10_sectors_delivered (bd : blockdevice) (lun lba0 epbuf : Z) (cnt : nat)
    (blks : Z -> list Z) (s : msc_state) :
  msc_card_inserted s = true -> 0 < epbuf ->
  (forall j, 0 <= j < Z.of_nat cnt ->
     bd_read bd (lba0 + j) = Some (blks j) /\ List.length (blks j) = 512%nat) ->
  exists s',
  tinyusb_read10 (512 * cnt) bd lun lba0 512 epbuf (512 * Z.of_nat cnt) 0 s
  = (List.concat (map (fun j => blks (Z.of_nat j)) (seq 0 cnt)), repeat 1 (512 * cnt), s',
     map (fun j => DevRead (lba0 + Z.of_nat j)) (seq 0 cnt)).
Proof.
  intros Hin Hep Hrd.
  exact (read10_sectors bd lun lba0 epbuf cnt blks Hep Hrd cnt 0 s eq_refl Hin).
Qed.

Lemma msc_read10_sectors_delivered_witness :
  exists s', tinyusb_read10 (512 * 2) sample_blockdevice 0 40 512 64 (512 * Z.of_nat 2) 0
               (sample_msc_state true)
  = (repeat 40 512 ++ repeat 41 512, repeat 1 1024, s', [DevRead 40; DevRead 41]).
Proof.
  destruct (msc_read10_sectors_delivered sample_blockdevice 0 40 64 2
              (fun j => repeat (40 + j) 512) (sample_msc_state true) eq_refl ltac:(lia))
    as [s' Hs'].
  - intros j Hj. split; [reflexivity | apply repeat_length].
  - exists s'. rewrite Hs'. reflexivity.
Defined.

(** X14: the capacity READ CAPACITY reports after [usb_msc_init]: blocks of
    the device's erase size, as many as fit whole in the device, so the
    reported capacity never exceeds the device and falls short of it by less
    than one block (erase size below 65536, block count below 2^32); when
    the block device could not be created the values of before are reported
    unchanged. *)
Theorem usb_msc_capacity_within_device (lun erase_size size : Z) (old : msc_capacity) :
  0 < erase_size < 2 ^ 16 -> 0 <= size -> size / erase_size < 2 ^ 32 ->
  snd (tud_msc_capacity_cb lun (usb_msc_init_capacity (Some (erase_size, size)) old))
  = erase_size /\
  fst (tud_msc_capacity_cb lun (usb_msc_init_capacity (Some (erase_size, size)) old))
    * erase_size <= size <
  (fst (tud_msc_capacity_cb lun (usb_msc_init_capacity (Some (erase_size, size)) old)) + 1)
    * erase_size /\
  tud_msc_capacity_cb lun (usb_msc_init_capacity None old)
  = (cap_block_count old, cap_block_size old).
Proof.
  intros He Hs Hc. unfold tud_msc_capacity_cb, usb_msc_init_capacity. cbn [fst snd].
  cbn [cap_block_count cap_block_size].
  rewrite (Z.mod_small erase_size) by lia.
  rewrite (Z.mod_small (size / erase_size))
    by (split; [apply Z.div_pos; lia | exact Hc]).
  split; [reflexivity|]. split; [|reflexivity].
  pose proof (Z.mul_div_le size erase_size ltac:(lia)).
  pose proof (Z.mul_succ_div_gt size erase_size ltac:(lia)).
  lia.
Qed.

Lemma usb_msc_capacity_within_device_witness :
  snd (tud_msc_capacity_cb 0 (usb_msc_init_capacity (Some (512, 8000000000))
                                (mk_msc_capacity 0 0))) = 512.
Proof.
  exact (proj1 (usb_msc_capacity_within_device 0 512 8000000000 (mk_msc_capacity 0 0)
                  ltac:(lia) ltac:(lia) ltac:(vm_compute; reflexivity))).
Defined.

(** X15: the string descriptors. Index 5 and above (no such string) give
    NULL. Indices 1 to 4 give the header word and then the characters of
    the string, one UTF-16 code unit each; the header's low byte, the
    descriptor's bLength, is the character count plus one, not the
    2 * (count + 1) bytes the descriptor spans, and its high byte is the
    string type 3. Index 0 gives the language id 0x0409 behind a header
    whose low byte is 3 and whose high byte, the type, is 1. *)
Theorem usb_string_descriptor_layout (index langid : Z) :
  0 <= index < 256 ->
  (5 <= index -> tud_descriptor_string_cb index langid = None) /\
  (index = 0 ->
   exists h, tud_descriptor_string_cb index langid = Some [h; 0x0409] /\
             h mod 256 = 3 /\ h / 256 = 1) /\
  (1 <= index <= 4 ->
   exists h str, tud_descriptor_string_cb index langid = Some (h :: str) /\
     str = nth (Z.to_nat index) string_desc_arr [] /\ (List.length str <= 31)%nat /\
     h mod 256 = Z.of_nat (List.length str) + 1 /\ h / 256 = TUSB_DESC_STRING).
Proof.
  intros Hr. split; [|split].
  - intros H5. unfold tud_descriptor_string_cb.
    assert (H0 : (index =? 0) = false) by (apply Z.eqb_neq; lia). rewrite H0.
    assert (Hge : (index >=? Z.of_nat (List.length string_desc_arr)) = true)
      by (rewrite Z.geb_le; unfold string_desc_arr; cbn [List.length]; lia).
    rewrite Hge. reflexivity.
  - intros ->. eexists; split; [reflexivity|]. split; reflexivity.
  - intros H14.
    assert (Hc : index = 1 \/ index = 2 \/ index = 3 \/ index = 4) by lia.
    destruct Hc as [-> | [-> | [-> | ->]]]; do 2 eexists;
      (split; [reflexivity|]); (split; [reflexivity|]);
      (split; [vm_compute; lia|]); split; vm_compute; reflexivity.
Qed.

Lemma usb_string_descriptor_layout_witness :
  tud_descriptor_string_cb 7 0x0409 = None.
Proof.
  exact (proj1 (usb_string_descriptor_layout 7 0x0409 ltac:(lia)) ltac:(lia)).
Defined.

(* ------------------------------------------------------------------ *)
(** ** Loading a program into flash *)

Lemma fread_chunks_concat (fuel n : nat) (l : list Z) :
  (0 < n)%nat -> (List.length l <= fuel)%nat -> List.concat (fread_chunks fuel n l) = l.
Proof.
  revert l. induction fuel as [|fuel IH]; intros l Hn Hlen.
  - destruct l; [reflexivity | simpl in Hlen; lia].
  - destruct l as [|x xs]; [reflexivity|]. cbn [fread_chunks List.concat].
    rewrite IH; [apply firstn_skipn | exact Hn |].
    rewrite length_skipn. cbn [List.length] in *. lia.
Qed.

Lemma file_chunks_concat (data : list Z) : List.concat (file_chunks data) = data.
Proof. apply fread_chunks_concat; [unfold FLASH_SECTOR_SIZE; lia | lia]. Qed.

Lemma fread_chunks_cons (fuel n : nat) (l : list Z) :
  l <> [] -> fread_chunks (S fuel) n l = firstn n l :: fread_chunks fuel n (skipn n l).
Proof. destruct l; [congruence | reflexivity]. Qed.

Lemma fread_chunks_empty (fuel n : nat) : fread_chunks fuel n [] = [].
Proof. destruct fuel; reflexivity. Qed.

Lemma fread_chunks_count (fuel n : nat) (l : list Z) :
  (0 < n)%nat -> (List.length l <= fuel)%nat -> l <> [] ->
  (n * (List.length (fread_chunks fuel n l) - 1) < List.length l
   <= n * List.length (fread_chunks fuel n l))%nat.
Proof.
  revert l. induction fuel as [|fuel IH]; intros l Hn Hlen Hne.
  - destruct l; [congruence | simpl in Hlen; lia].
  - assert (Hpos : (0 < List.length l)%nat) by (destruct l; [congruence | simpl; lia]).
    rewrite (fread_chunks_cons fuel n l Hne). cbn [List.length].
    assert (Hsl : List.length (skipn n l) = (List.length l - n)%nat) by apply length_skipn.
    destruct (skipn n l) as [|y ys] eqn:Hs.
    + rewrite fread_chunks_empty. cbn [List.length] in *. nia.
    + rewrite <- Hs in *.
      assert (Hgt : (n < List.length l)%nat)
        by (rewrite Hs in Hsl; cbn [List.length] in Hsl; lia).
      destruct (IH (skipn n l) Hn ltac:(rewrite Hsl; lia)
                  ltac:(rewrite Hs; discriminate)) as [H1 H2].
      rewrite Hsl in H1, H2.
      destruct (List.length (fread_chunks fuel n (skipn n l))) as [|j]; [lia|].
      nia.
Qed.

Lemma program_loop_result (cfg : config) (cs : list (list Z)) (ps : Z) :
  ps <= MAX_APP_SIZE cfg ->
  fst (program_loop cfg cs ps)
  = (ps + Z.of_nat (List.length (List.concat cs)) <=? MAX_APP_SIZE cfg).
Proof.
  revert ps. induction cs as [|c cs IH]; intros ps Hps; cbn [program_loop].
  - symmetry. apply Z.leb_le. cbn. lia.
  - rewrite Z.gtb_ltb. cbn [List.concat]. rewrite length_app, Nat2Z.inj_add.
    destruct (Z.ltb_spec (MAX_APP_SIZE cfg) (ps + Z.of_nat (List.length c))) as [Hlt|Hge].
    + symmetry. apply Z.leb_gt. lia.
    + specialize (IH (ps + Z.of_nat (List.length c)) Hge).
      destruct (program_loop cfg cs _) as [ok es]. cbn [fst] in *. rewrite IH.
      f_equal. ring.
Qed.

Lemma readable_data_length (fp : file) :
  (List.length (readable_data fp) <= List.length (file_data fp))%nat.
Proof. unfold readable_data. destruct (read_error_at fp); [rewrite length_firstn|]; lia. Qed.

Lemma load_program_success_shape (cfg : config) (fs : filesystem) (m : flash_mem)
    (path : string) :
  fst (load_program cfg fs m path) = true ->
  exists fp, fs path = Some fp /\ seek_end_fails fp = false /\ ftell_fails fp = false /\
    seek_set_fails fp = false /\ file_data fp <> [] /\
    Z.of_nat (List.length (file_data fp)) <= MAX_APP_SIZE cfg /\
    fst (program_loop cfg (file_chunks (readable_data fp)) 0) = true /\
    snd (load_program cfg fs m path)
    = DebugPrint "updating: %ld bytes" :: snd (program_loop cfg (file_chunks (readable_data fp)) 0).
Proof.
  unfold load_program. destruct (fs path) as [fp|]; [|discriminate].
  destruct (seek_end_fails fp) eqn:Hse; [discriminate|].
  destruct (ftell_fails fp) eqn:Hft; [discriminate|].
  destruct (Z.leb_spec (Z.of_nat (List.length (file_data fp))) 0) as [H0|H0]; [discriminate|].
  rewrite Z.gtb_ltb.
  destruct (Z.ltb_spec (MAX_APP_SIZE cfg) (Z.of_nat (List.length (file_data fp)))) as [H1|H1];
    [discriminate|].
  destruct (seek_set_fails fp) eqn:Hss; [discriminate|].
  destruct (program_loop cfg (file_chunks (readable_data fp)) 0) as [ok es] eqn:Hp.
  cbn [fst snd]. intros ->. exists fp. rewrite Hp. repeat split; auto.
  destruct (file_data fp); [simpl in H0; lia | discriminate].
Qed.

(** X16: [load_program] succeeds exactly when the file opens, both seeks and
    [ftell] work, and the file is non-empty and at most MAX_APP_SIZE bytes:
    the "write beyond app area" guard of the programming loop never fires
    once the size check has passed. *)
Theorem load_program_succeeds_iff (cfg : config) (fs : filesystem) (m : flash_mem)
    (path : string) :
  fst (load_program cfg fs m path) = true <->
  exists fp, fs path = Some fp /\ seek_end_fails fp = false /\ ftell_fails fp = false /\
    seek_set_fails fp = false /\ file_data fp <> [] /\
    Z.of_nat (List.length (file_data fp)) <= MAX_APP_SIZE cfg.
Proof.
  split.
  - intros H. destruct (load_program_success_shape cfg fs m path H)
      as (fp & H1 & H2 & H3 & H4 & H5 & H6 & _). exists fp. repeat split; assumption.
  - intros (fp & Hfs & Hse & Hft & Hss & Hne & Hmax).
    assert (Hpos : 0 < Z.of_nat (List.length (file_data fp)))
      by (destruct (file_data fp); [congruence | simpl; lia]).
    unfold load_program. rewrite Hfs, Hse, Hft, Hss.
    destruct (Z.leb_spec (Z.of_nat (List.length (file_data fp))) 0) as [H0|H0]; [lia|].
    rewrite Z.gtb_ltb.
    destruct (Z.ltb_spec (MAX_APP_SIZE cfg) (Z.of_nat (List.length (file_data fp)))) as [H1|H1];
      [lia|].
    pose proof (program_loop_result cfg (file_chunks (readable_data fp)) 0 ltac:(lia)) as Hr.
    rewrite file_chunks_concat in Hr.
    destruct (program_loop cfg (file_chunks (readable_data fp)) 0) as [ok es].
    cbn [fst] in *. rewrite Hr. apply Z.leb_le. pose proof (readable_data_length fp). lia.
Qed.

Lemma load_program_succeeds_iff_witness :
  fst (load_program rp2040_config (fun _ => Some (small_file 5000)) (fun _ => 255) "app.bin")
  = true.
Proof.
  apply (proj2 (load_program_succeeds_iff rp2040_config (fun _ => Some (small_file 5000))
                  (fun _ => 255) "app.bin")).
  exists (small_file 5000). repeat split; try reflexivity.
  - discriminate.
  - vm_compute. discriminate.
Defined.

Lemma program_loop_flash_count (cfg : config) (cs : list (list Z)) (ps : Z) :
  fst (program_loop cfg cs ps) = true ->
  List.length (flash_ops (snd (program_loop cfg cs ps))) = (2 * List.length cs)%nat.
Proof.
  revert ps. induction cs as [|c cs IH]; intros ps; cbn [program_loop]; [reflexivity|].
  destruct (_ >? _); [discriminate|].
  specialize (IH (ps + Z.of_nat (List.length c))).
  destruct (program_loop cfg cs _) as [ok es]. cbn [fst snd] in *.
  intros Hok. specialize (IH Hok). cbn [flash_ops filter is_flash_op List.length].
  unfold flash_ops in IH. rewrite IH. lia.
Qed.

(** X17: a successful [load_program] erases and programs one sector per
    4096-byte chunk that [fread] delivered: with n readable bytes, k pairs
    with 4096 (k - 1) < n <= 4096 k (no pair when a read error hits the
    first byte). The readable bytes can be fewer than the file's size: a
    read error ends the loop like the end of the file, and the result is
    still true. *)
Theorem load_program_sector_count (cfg : config) (fs : filesystem) (m : flash_mem)
    (path : string) (fp : file) :
  fs path = Some fp -> fst (load_program cfg fs m path) = true ->
  let k := List.length (file_chunks (readable_data fp)) in
  List.length (flash_ops (snd (load_program cfg fs m path))) = (2 * k)%nat /\
  ((4096 * (k - 1) < List.length (readable_data fp) <= 4096 * k)%nat \/
   (readable_data fp = [] /\ k = 0%nat)) /\
  (List.length (readable_data fp) <= List.length (file_data fp))%nat.
Proof.
  intros Hfs Hok. cbv zeta.
  destruct (load_program_success_shape cfg fs m path Hok)
    as (fp' & Hfs' & _ & _ & _ & _ & _ & Hloop & Hes).
  rewrite Hfs in Hfs'. injection Hfs' as <-.
  rewrite Hes. cbn [flash_ops filter is_flash_op]. split; [|split].
  - apply program_loop_flash_count. exact Hloop.
  - destruct (readable_data fp) as [|b bs] eqn:Hr.
    + right. split; reflexivity.
    + left. rewrite <- Hr.
      apply fread_chunks_count; [unfold FLASH_SECTOR_SIZE; lia | lia | rewrite Hr; discriminate].
  - apply readable_data_length.
Qed.

Lemma load_program_sector_count_witness :
  List.length (flash_ops (snd (load_program rp2040_config (fun _ => Some partial_file)
                                 (fun _ => 255) "app.bin"))) = 2%nat.
Proof.
  exact (proj1 (load_program_sector_count rp2040_config (fun _ => Some partial_file)
                  (fun _ => 255) "app.bin" partial_file eq_refl ltac:(vm_compute; reflexivity))).
Defined.

Lemma program_bytes_spec (m : flash_mem) (off : Z) (data : list Z) (a : Z) :
  program_bytes m off data a
  = if (off <=? a) && (a <? off + Z.of_nat (List.length data))
    then Z.land (m a) (nth (Z.to_nat (a - off)) data 0) else m a.
Proof.
  revert m off. induction data as [|b data IH]; intros m off; cbn [program_bytes].
  - cbn [List.length]. destruct (Z.leb_spec off a), (Z.ltb_spec a (off + Z.of_nat 0));
      cbn [andb]; try reflexivity; lia.
  - rewrite IH. cbn [List.length]. rewrite Nat2Z.inj_succ.
    destruct (Z.eqb_spec a off) as [->|Hne].
    + replace ((off + 1 <=? off)) with false by (symmetry; apply Z.leb_gt; lia).
      replace (off <=? off) with true by (symmetry; apply Z.leb_le; lia).
      replace (off <? off + Z.succ (Z.of_nat (List.length data))) with true
        by (symmetry; apply Z.ltb_lt; lia).
      rewrite Z.sub_diag. reflexivity.
    + destruct (Z.leb_spec (off + 1) a); destruct (Z.leb_spec off a); try lia;
        cbn [andb].
      * replace (a <? off + 1 + Z.of_nat (List.length data))
          with (a <? off + Z.succ (Z.of_nat (List.length data)))
          by (f_equal; lia).
        destruct (a <? _); [|reflexivity].
        replace (Z.to_nat (a - off)) with (S (Z.to_nat (a - (off + 1)))) by lia.
        reflexivity.
      * reflexivity.
Qed.

Lemma apply_effect_below (m : flash_mem) (e : effect) (a : Z) :
  (is_flash_op e = true -> a < op_offset e) -> apply_effect m e a = m a.
Proof.
  intros H. destruct e as [| | |off len|off data| |]; try reflexivity;
    specialize (H eq_refl); cbn [op_offset] in H; cbn [apply_effect].
  - destruct (Z.leb_spec off a); [lia | reflexivity].
  - rewrite program_bytes_spec. destruct (Z.leb_spec off a); [lia | reflexivity].
Qed.

Lemma apply_flash_below (es : list effect) (m : flash_mem) (a : Z) :
  Forall (fun e => is_flash_op e = true -> a < op_offset e) es -> apply_flash es m a = m a.
Proof.
  revert m. induction es as [|e es IH]; intros m H; [reflexivity|].
  apply Forall_cons_iff in H as [He Hes]. unfold apply_flash in *. cbn [fold_left].
  rewrite IH by exact Hes. apply apply_effect_below. exact He.
Qed.

Lemma program_loop_offsets (cfg : config) (cs : list (list Z)) (ps : Z) :
  Forall (fun e => is_flash_op e = true -> SD_BOOT_FLASH_OFFSET cfg + ps <= op_offset e)
         (snd (program_loop cfg cs ps)).
Proof.
  revert ps. induction cs as [|c cs IH]; intros ps; cbn [program_loop].
  - repeat constructor; discriminate.
  - destruct (_ >? _); [repeat constructor; discriminate|].
    specialize (IH (ps + Z.of_nat (List.length c))).
    destruct (program_loop cfg cs _) as [ok es]. cbn [snd] in *.
    constructor; [intros _; cbn [op_offset]; lia|].
    constructor; [intros _; cbn [op_offset]; lia|].
    eapply Forall_impl; [|exact IH]. intros e He Hf. specialize (He Hf). lia.
Qed.

Lemma land_255_byte (b : Z) : 0 <= b < 256 -> Z.land 255 b = b.
Proof.
  intros Hb. rewrite Z.land_comm. change 255 with (Z.ones 8).
  rewrite Z.land_ones by lia. apply Z.mod_small. exact Hb.
Qed.

Lemma chunks_shape_bound (n : nat) (cs : list (list Z)) :
  chunks_shape n cs -> Forall (fun c => (List.length c <= n)%nat) cs.
Proof.
  induction cs as [|c cs IH]; intros H; constructor; destruct H as (H1 & _ & H3);
    [lia | exact (IH H3)].
Qed.

Lemma program_loop_image (cfg : config) (cs : list (list Z)) (ps : Z) (m : flash_mem) :
  fst (program_loop cfg cs ps) = true ->
  Forall (fun c => (List.length c <= 4096)%nat) cs ->
  Forall (fun b => 0 <= b < 256) (List.concat cs) ->
  forall i, (i < List.length (List.concat cs))%nat ->
  apply_flash (snd (program_loop cfg cs ps)) m (SD_BOOT_FLASH_OFFSET cfg + ps + Z.of_nat i)
  = nth i (List.concat cs) 0.
Proof.
  revert ps m. induction cs as [|c cs IH]; intros ps m Hok Hlen Hbytes i Hi;
    [cbn in Hi; lia|].
  apply Forall_cons_iff in Hlen as [Hc Hlen]. cbn [List.concat] in *.
  apply Forall_app in Hbytes as [Hbc Hbytes].
  cbn [program_loop] in *.
  destruct (_ >? _); [discriminate|].
  pose proof (program_loop_offsets cfg cs (ps + Z.of_nat (List.length c))) as Hoffs.
  specialize (IH (ps + Z.of_nat (List.length c))).
  destruct (program_loop cfg cs _) as [ok es]. cbn [fst snd] in *. subst ok.
  unfold apply_flash. cbn [fold_left]. fold (apply_flash es).
  set (m2 := apply_effect (apply_effect m (FlashErase (SD_BOOT_FLASH_OFFSET cfg + ps)
                                                     FLASH_SECTOR_SIZE))
                          (FlashProgram (SD_BOOT_FLASH_OFFSET cfg + ps) c)).
  rewrite length_app in Hi.
  destruct (Nat.lt_ge_cases i (List.length c)) as [Hic|Hic].
  - rewrite apply_flash_below.
    2: { eapply Forall_impl; [|exact Hoffs]. intros e He Hf. specialize (He Hf). lia. }
    subst m2. cbn [apply_effect]. rewrite program_bytes_spec.
    replace ((SD_BOOT_FLASH_OFFSET cfg + ps <=? SD_BOOT_FLASH_OFFSET cfg + ps + Z.of_nat i)
             && (SD_BOOT_FLASH_OFFSET cfg + ps + Z.of_nat i
                 <? SD_BOOT_FLASH_OFFSET cfg + ps + Z.of_nat (List.length c)))
      with true by (symmetry; apply andb_true_iff; split; [apply Z.leb_le | apply Z.ltb_lt]; lia).
    replace ((SD_BOOT_FLASH_OFFSET cfg + ps <=? SD_BOOT_FLASH_OFFSET cfg + ps + Z.of_nat i)
             && (SD_BOOT_FLASH_OFFSET cfg + ps + Z.of_nat i
                 <? SD_BOOT_FLASH_OFFSET cfg + ps + FLASH_SECTOR_SIZE))
      with true by (symmetry; apply andb_true_iff; split; [apply Z.leb_le | apply Z.ltb_lt];
                    unfold FLASH_SECTOR_SIZE; lia).
    replace (Z.to_nat (SD_BOOT_FLASH_OFFSET cfg + ps + Z.of_nat i - (SD_BOOT_FLASH_OFFSET cfg + ps)))
      with i by lia.
    rewrite app_nth1 by exact Hic. apply land_255_byte.
    rewrite Forall_forall in Hbc. apply Hbc, nth_In, Hic.
  - rewrite app_nth2 by exact Hic.
    replace (SD_BOOT_FLASH_OFFSET cfg + ps + Z.of_nat i)
      with (SD_BOOT_FLASH_OFFSET cfg + (ps + Z.of_nat (List.length c))
            + Z.of_nat (i - List.length c)) by lia.
    apply IH; [reflexivity | exact Hlen | exact Hbytes | lia].
Qed.

Lemma flash_bytes_eq (m : flash_mem) (off : Z) (c : list Z) :
  (forall i, (i < List.length c)%nat -> m (off + Z.of_nat i) = nth i c 0) ->
  flash_bytes m off (List.length c) = c.
Proof.
  revert off. induction c as [|b c IH]; intros off H; [reflexivity|].
  unfold flash_bytes. cbn [List.length seq map].
  rewrite <- seq_shift, map_map.
  f_equal.
  - rewrite (H 0%nat) by (cbn; lia). reflexivity.
  - assert (Hc : flash_bytes m (off + 1) (List.length c) = c).
    { apply IH. intros j Hj. replace (off + 1 + Z.of_nat j) with (off + Z.of_nat (S j)) by lia.
      apply (H (S j)). cbn. lia. }
    unfold flash_bytes in Hc. rewrite <- Hc at 2.
    apply map_ext. intros j. f_equal. lia.
Qed.

Lemma list_Z_eqb_refl (l : list Z) : list_Z_eqb l l = true.
Proof. induction l as [|x l IH]; [reflexivity|]. cbn. rewrite Z.eqb_refl, IH. reflexivity. Qed.

Lemma same_chunks_image (cfg : config) (m : flash_mem) (cs : list (list Z)) (ps : Z) :
  (forall i, (i < List.length (List.concat cs))%nat ->
     m (SD_BOOT_FLASH_OFFSET cfg + ps + Z.of_nat i) = nth i (List.concat cs) 0) ->
  same_chunks cfg m cs ps = true.
Proof.
  revert ps. induction cs as [|c cs IH]; intros ps H; [reflexivity|].
  cbn [same_chunks]. cbn [List.concat] in H.
  rewrite flash_bytes_eq, list_Z_eqb_refl.
  - apply IH. intros i Hi.
    replace (SD_BOOT_FLASH_OFFSET cfg + (ps + Z.of_nat (List.length c)) + Z.of_nat i)
      with (SD_BOOT_FLASH_OFFSET cfg + ps + Z.of_nat (List.length c + i)) by lia.
    rewrite H by (rewrite length_app; lia).
    rewrite app_nth2 by lia. f_equal. lia.
  - intros i Hi. replace (SD_BOOT_FLASH_OFFSET cfg + ps + Z.of_nat i)
      with (SD_BOOT_FLASH_OFFSET cfg + ps + Z.of_nat i) by lia.
    rewrite H by (rewrite length_app; lia). apply app_nth1. exact Hi.
Qed.

Lemma apply_effect_above (m : flash_mem) (e : effect) (a : Z) :
  (is_flash_op e = true -> op_offset e + op_length e <= a) -> apply_effect m e a = m a.
Proof.
  intros H. destruct e as [| | |off len|off data| |]; try reflexivity;
    specialize (H eq_refl); cbn [op_offset op_length] in H; cbn [apply_effect].
  - destruct (Z.ltb_spec a (off + len)); [lia|]. rewrite andb_false_r. reflexivity.
  - rewrite program_bytes_spec. destruct (Z.ltb_spec a (off + Z.of_nat (List.length data)));
      [lia|]. rewrite andb_false_r. reflexivity.
Qed.

Lemma apply_flash_above (es : list effect) (m : flash_mem) (a : Z) :
  Forall (fun e => is_flash_op e = true -> op_offset e + op_length e <= a) es ->
  apply_flash es m a = m a.
Proof.
  revert m. induction es as [|e es IH]; intros m H; [reflexivity|].
  apply Forall_cons_iff in H as [He Hes]. unfold apply_flash in *. cbn [fold_left].
  rewrite IH by exact Hes. apply apply_effect_above. exact He.
Qed.

Lemma program_loop_extent (cfg : config) (cs : list (list Z)) (ps : Z) :
  Forall (fun c => (List.length c <= 4096)%nat) cs ->
  Forall (fun e => is_flash_op e = true ->
            op_offset e + op_length e
            <= SD_BOOT_FLASH_OFFSET cfg + ps + 4096 * Z.of_nat (List.length cs))
         (snd (program_loop cfg cs ps)).
Proof.
  revert ps. induction cs as [|c cs IH]; intros ps Hc; cbn [program_loop].
  - repeat constructor; discriminate.
  - apply Forall_cons_iff in Hc as [Hc Hcs].
    destruct (_ >? _); [repeat constructor; discriminate|].
    specialize (IH (ps + Z.of_nat (List.length c)) Hcs).
    destruct (program_loop cfg cs _) as [ok es]. cbn [snd] in *.
    cbn [List.length]. rewrite Nat2Z.inj_succ.
    constructor; [intros _; cbn [op_offset op_length]; unfold FLASH_SECTOR_SIZE; lia|].
    constructor; [intros _; cbn [op_offset op_length]; lia|].
    eapply Forall_impl; [|exact IH]. intros e He Hf. specialize (He Hf). lia.
Qed.

(** X18: after a successful [load_program], flash holds the bytes [fread]
    delivered from SD_BOOT_FLASH_OFFSET on, whatever it held before (each
    sector is erased before it is programmed); flash below the region and
    from the end of the last programmed sector on is untouched; and
    [is_same_existing_program] then reports the file as the resident
    program. After a read error these bytes are a prefix of the file: the
    rest of the old image stays in flash, the result is still true and the
    comparison cannot tell. *)
Theorem load_program_writes_file_image (cfg : config) (fs : filesystem) (m : flash_mem)
    (path : string) (fp : file) :
  fs path = Some fp -> Forall (fun b => 0 <= b < 256) (readable_data fp) ->
  fst (load_program cfg fs m path) = true ->
  let k := List.length (file_chunks (readable_data fp)) in
  (forall i, (i < List.length (readable_data fp))%nat ->
     apply_flash (snd (load_program cfg fs m path)) m (SD_BOOT_FLASH_OFFSET cfg + Z.of_nat i)
     = nth i (readable_data fp) 0) /\
  (forall a, a < SD_BOOT_FLASH_OFFSET cfg \/
             SD_BOOT_FLASH_OFFSET cfg + 4096 * Z.of_nat k <= a ->
     apply_flash (snd (load_program cfg fs m path)) m a = m a) /\
  is_same_existing_program cfg (apply_flash (snd (load_program cfg fs m path)) m) fp = true.
Proof.
  intros Hfs Hbytes Hok. cbv zeta.
  destruct (load_program_success_shape cfg fs m path Hok)
    as (fp' & Hfs' & _ & _ & _ & _ & _ & Hloop & Hes).
  rewrite Hfs in Hfs'. injection Hfs' as <-.
  rewrite Hes. unfold apply_flash at 1 2 3. cbn [fold_left apply_effect]. fold (apply_flash).
  assert (Himg : forall i, (i < List.length (readable_data fp))%nat ->
            apply_flash (snd (program_loop cfg (file_chunks (readable_data fp)) 0)) m
              (SD_BOOT_FLASH_OFFSET cfg + Z.of_nat i) = nth i (readable_data fp) 0).
  { intros i Hi. pose proof (program_loop_image cfg (file_chunks (readable_data fp)) 0 m Hloop
                               (chunks_shape_bound _ _ (file_chunks_shape _))) as H.
    rewrite file_chunks_concat, Z.add_0_r in H. apply H; assumption. }
  split; [exact Himg|]. split.
  - intros a [Ha|Ha].
    + apply apply_flash_below.
      eapply Forall_impl; [|apply (program_loop_offsets cfg _ 0)].
      intros e He Hf. specialize (He Hf). lia.
    + apply apply_flash_above.
      eapply Forall_impl;
        [|apply (program_loop_extent cfg _ 0 (chunks_shape_bound _ _ (file_chunks_shape _)))].
      intros e He Hf. specialize (He Hf). lia.
  - unfold is_same_existing_program. apply same_chunks_image.
    rewrite file_chunks_concat, Z.add_0_r. exact Himg.
Qed.

Lemma load_program_writes_file_image_witness :
  fst (load_program rp2040_config (fun _ => Some partial_file) (fun _ => 0) "app.bin") = true /\
  nth 4096 (file_data partial_file) 0 = 1 /\
  apply_flash (snd (load_program rp2040_config (fun _ => Some partial_file)
                      (fun _ => 0) "app.bin")) (fun _ => 0) (262144 + 4096) = 0 /\
  is_same_existing_program rp2040_config
    (apply_flash (snd (load_program rp2040_config (fun _ => Some partial_file)
                         (fun _ => 0) "app.bin")) (fun _ => 0))
    partial_file = true.
Proof.
  assert (Hok : fst (load_program rp2040_config (fun _ => Some partial_file) (fun _ => 0)
                       "app.bin") = true) by (vm_compute; reflexivity).
  assert (Hb : Forall (fun b => 0 <= b < 256) (readable_data partial_file)).
  { apply Forall_forall. intros x Hx.
    assert (Hr : readable_data partial_file = repeat 1 4096) by (vm_compute; reflexivity).
    rewrite Hr in Hx. apply repeat_spec in Hx. lia. }
  destruct (load_program_writes_file_image rp2040_config (fun _ => Some partial_file)
              (fun _ => 0) "app.bin" partial_file eq_refl Hb Hok) as (_ & Hout & Hsame).
  split; [exact Hok|]. split; [vm_compute; reflexivity|]. split; [|exact Hsame].
  apply Hout. right. vm_compute. discriminate.
Defined.

(* ------------------------------------------------------------------ *)
(** ** File selection and the mass-storage loop of main *)

Lemma string_length_list_ascii (s : string) :
  String.length s = List.length (list_ascii_of_string s).
Proof. induction s as [|a s IH]; [reflexivity|]. cbn. rewrite IH. reflexivity. Qed.

Lemma c_suffix_of_ends_with (path : string) (pre : list ascii) :
  list_ascii_of_string path = pre ++ list_ascii_of_string ".bin" ->
  (String.length ".bin" <= String.length path)%nat /\
  String.eqb (c_suffix path (String.length path - String.length ".bin")) ".bin" = true.
Proof.
  intros H. rewrite !string_length_list_ascii, H, length_app.
  split; [lia|]. unfold c_suffix. rewrite H.
  replace (List.length pre + List.length (list_ascii_of_string ".bin")
           - List.length (list_ascii_of_string ".bin"))%nat with (List.length pre) by lia.
  rewrite skipn_app, skipn_all, Nat.sub_diag. cbn [skipn app].
  rewrite string_of_list_ascii_of_string. apply String.eqb_refl.
Qed.

Lemma last_trace (p : list effect) (a b c d e : effect) : last (p ++ [a; b; c; d]) e = d.
Proof. change [a; b; c; d] with ([a; b; c] ++ [d]). rewrite app_assoc. apply last_last. Qed.

(** X19: a selected path that ends in ".bin" is accepted: the callback logs,
    shows "SEL: <path>" (cut to 127 characters), waits 200 ms and hands the
    path to [load_firmware_by_path], whose trace ends in the launch of the
    application area or in a watchdog reboot. *)
Theorem final_selection_accepts_bin (cfg : config) (fs : filesystem) (m : flash_mem)
    (path : string) (pre : list ascii) :
  list_ascii_of_string path = pre ++ list_ascii_of_string ".bin" ->
  final_selection_callback cfg fs m path
  = DebugPrint "selected: %s" :: SetStatus (snprintf128 ("SEL: " ++ path)) :: SleepMs 200 ::
    load_firmware_by_path cfg fs m path /\
  (last (final_selection_callback cfg fs m path) WatchdogReboot
     = LaunchApp (XIP_BASE + SD_BOOT_FLASH_OFFSET cfg) \/
   last (final_selection_callback cfg fs m path) WatchdogReboot = WatchdogReboot).
Proof.
  intros H. destruct (c_suffix_of_ends_with path pre H) as [Hlen Heq].
  assert (Hcb : final_selection_callback cfg fs m path
    = DebugPrint "selected: %s" :: SetStatus (snprintf128 ("SEL: " ++ path)) :: SleepMs 200 ::
      load_firmware_by_path cfg fs m path).
  { unfold final_selection_callback. rewrite Heq.
    replace ((String.length path <? String.length ".bin")%nat) with false
      by (symmetry; apply Nat.ltb_ge; exact Hlen).
    reflexivity. }
  split; [exact Hcb|]. rewrite Hcb.
  unfold load_firmware_by_path. destruct (load_program cfg fs m path) as [ok es].
  destruct (ok || resident_header_valid cfg (apply_flash es m)).
  - left. rewrite !app_comm_cons, last_trace. reflexivity.
  - right. rewrite !app_comm_cons, last_trace. reflexivity.
Qed.

Lemma final_selection_accepts_bin_witness :
  list_ascii_of_string "app.bin" = list_ascii_of_string "app" ++ list_ascii_of_string ".bin" /\
  (last (final_selection_callback rp2040_config (fun _ => Some (small_file 5000)) (fun _ => 0)
           "app.bin") WatchdogReboot = LaunchApp (XIP_BASE + SD_BOOT_FLASH_OFFSET rp2040_config) \/
   last (final_selection_callback rp2040_config (fun _ => Some (small_file 5000)) (fun _ => 0)
           "app.bin") WatchdogReboot = WatchdogReboot).
Proof.
  split; [reflexivity|].
  exact (proj2 (final_selection_accepts_bin rp2040_config (fun _ => Some (small_file 5000))
                  (fun _ => 0) "app.bin" (list_ascii_of_string "app") eq_refl)).
Defined.

Lemma msc_loop_inv_step (s s' : main_state) :
  msc_loop_inv s -> main_step s s' -> msc_loop_inv s'.
Proof.
  unfold msc_loop_inv. intros (Hloop & Hstop & Hrem) Hstep.
  destruct Hstep as [s b Ht|s ok Hpc|s o Hpc|s Hpc|s Hpc|s created Hpc|s Hpc He
                    |s Hpc He|s Hpc|s ok Hpc]; cbn [pc esc_exit].
  - auto.
  - destruct ok; repeat split; discriminate.
  - destruct o; cbn [ui_next]; repeat split; discriminate.
  - repeat split; discriminate.
  - repeat split; discriminate.
  - repeat split; discriminate.
  - auto.
  - rewrite (Hloop Hpc) in He. discriminate.
  - contradiction.
  - contradiction.
Qed.

Lemma msc_loop_inv_reachable (s : main_state) : main_reachable s -> msc_loop_inv s.
Proof.
  induction 1 as [s (Hpc & _)|s s' _ IH Hstep].
  - unfold msc_loop_inv. rewrite Hpc. repeat split; discriminate.
  - eapply msc_loop_inv_step; eassumption.
Qed.

(** X20: [main]'s mass-storage loop ([while (!esc_exit) tud_task();] with the
    ESC check commented out) is never left: on every run [usb_msc_stop] and
    the remount after it are never reached, and once at the loop every step
    (card events included) stays in it. *)
Theorem main_msc_loop_never_left (s : main_state) :
  main_reachable s ->
  pc s <> PcMscStop /\ pc s <> PcRemount /\
  (pc s = PcMscLoop -> forall s', main_step s s' -> pc s' = PcMscLoop).
Proof.
  intros Hr. destruct (msc_loop_inv_reachable s Hr) as (Hloop & Hstop & Hrem).
  split; [exact Hstop|]. split; [exact Hrem|].
  intros Hpc s' Hstep.
  destruct Hstep as [s b Ht|s ok Hpc'|s o Hpc'|s Hpc'|s Hpc'|s created Hpc'|s Hpc' He
                    |s Hpc' He|s Hpc'|s ok Hpc']; cbn [pc];
    try (rewrite Hpc in Hpc'; discriminate Hpc').
  - exact Hpc.
  - exact Hpc.
  - rewrite (Hloop Hpc) in He. discriminate.
Qed.

Lemma msc_loop_state_reachable :
  main_reachable (mk_main PcMscLoop false false true false true).
Proof.
  apply reach_step with (s := mk_main PcMscInit false false false false true).
  2: exact (step_msc_init (mk_main PcMscInit false false false false true) true eq_refl).
  apply reach_step with (s := mk_main PcMscPopup false false false false true).
  2: exact (step_popup (mk_main PcMscPopup false false false false true) eq_refl).
  apply reach_step with (s := mk_main PcFsDeinit true true false false true).
  2: exact (step_fs_deinit (mk_main PcFsDeinit true true false false true) eq_refl).
  apply reach_step with (s := mk_main PcUiRun true true false false true).
  2: exact (step_ui (mk_main PcUiRun true true false false true) UiMscRequested eq_refl).
  apply reach_step with (s := mk_main PcFsInit false false false false true).
  2: exact (step_fs_init (mk_main PcFsInit false false false false true) true eq_refl).
  apply reach_init. repeat split.
Qed.

Lemma main_msc_loop_never_left_witness :
  main_reachable (mk_main PcMscLoop false false true false true) /\
  pc (mk_main PcMscLoop false false true false true) <> PcMscStop.
Proof.
  split; [exact msc_loop_state_reachable|].
  exact (proj1 (main_msc_loop_never_left _ msc_loop_state_reachable)).
Defined.
